(** * HttpPipe: the POST header strategy and the streaming policies

    A shallow embedding of [PostHeader] and of the option [-d] (main.cc),
    and of the policies of [v::HttpPipe], which pipe.h declares and whose
    bodies (pipe.cc) are modelled from the design document, with the
    properties the design document states about them.

    Conventions.  A [const char *] is an [option string]: [None] is the null
    pointer and [Some s] points at the characters [s] that precede the
    terminating NUL.  A [char] array that holds a C string ([host_],
    [buffer_], [destination]) is the [string] of the characters before its
    first NUL.  Integers are [Z]; where the source converts or wraps, the
    conversion is written out.  A call that the C standard leaves undefined
    has the outcome [Undefined], and no property is stated about it. *)

From Stdlib Require Import ZArith NArith Lia Bool List Ascii String DecimalString.
From Stdlib Require DecimalPos DecimalN.
Import ListNotations.

Open Scope string_scope.
Open Scope Z_scope.

(** * Part I: the program *)

(** ** Strings *)

Module Str.

(** The first [n] characters of [s] (all of [s] when it is shorter). *)
Fixpoint take (n : nat) (s : string) : string :=
  match n, s with
  | O, _ => EmptyString
  | S _, EmptyString => EmptyString
  | S n', String c s' => String c (take n' s')
  end.

Definition len (s : string) : Z := Z.of_nat (String.length s).

Definition CRLF : string := String "013" (String "010" EmptyString).

(** [n] times the character [c]. *)
Fixpoint fill (c : ascii) (n : nat) : string :=
  match n with
  | O => EmptyString
  | S n' => String c (fill c n')
  end.

End Str.

(** ** The C library functions the header calls *)

Module LibC.

(** [tolower] in the C locale, as the character's code. *)
Definition tolower (c : ascii) : Z :=
  let n := Z.of_nat (nat_of_ascii c) in
  if (65 <=? n) && (n <=? 90) then n + 32 else n.

(** [strcasecmp]: the difference of the first pair of characters that differ
    once lowered; the comparison stops at a NUL, and the end of a string
    reads as one. *)
Fixpoint strcasecmp (a b : string) : Z :=
  match a, b with
  | EmptyString, EmptyString => 0
  | EmptyString, String d _ => 0 - tolower d
  | String c _, EmptyString => tolower c - 0
  | String c a', String d b' =>
      if tolower c =? tolower d
      then (if tolower c =? 0 then 0 else strcasecmp a' b')
      else tolower c - tolower d
  end.

(** The lowered characters of a C string, up to its terminator. *)
Fixpoint lowered (s : string) : list Z :=
  match s with
  | EmptyString => []
  | String c s' =>
      if tolower c =? 0 then [] else tolower c :: lowered s'
  end.

(** [snprintf(dst, size, ...)] once the format has been expanded to [text]:
    the characters stored in front of the terminator ([None] when [size] is 0
    and nothing at all is stored), and the returned count, which is the
    length of [text] whether or not it was cut. *)
Definition snprintf (size : Z) (text : string) : option string * Z :=
  (if size =? 0 then None else Some (Str.take (Z.to_nat (size - 1)) text),
   Str.len text).

(** The C string in a buffer whose content was [buf] after [s] and a
    terminator are stored at index [off].  When [off] lies beyond the old
    terminator, that terminator still ends the string. *)
Definition store_at (buf : string) (off : nat) (s : string) : string :=
  if (off <=? String.length buf)%nat then Str.take off buf ++ s else buf.

(** The conversion [%zu]. *)
Definition fmt_zu (n : N) : string := NilZero.string_of_uint (N.to_uint n).

End LibC.

(** ** Results of a call *)

Inductive assert_site : Type := in_SetRequest | in_SetField.

(** A call returns, or stops at an [assert(false)], or leaves the behaviour
    the C standard defines (a null pointer read as a string, a store outside
    [buffer_]). *)
Inductive outcome (A : Type) : Type :=
| Ok (a : A)
| AssertFail (site : assert_site)
| Undefined.

Arguments Ok {A} a.
Arguments AssertFail {A} site.
Arguments Undefined {A}.

Definition bind {A B : Type} (m : outcome A) (k : A -> outcome B) : outcome B :=
  match m with
  | Ok a => k a
  | AssertFail w => AssertFail w
  | Undefined => Undefined
  end.

Notation "x <- m ;; k" := (bind m (fun x => k))
  (at level 61, m at next level, right associativity).

(** ** PostHeader (main.cc) *)

Module PostHeader.

Definition program : string := "pipe".
Definition version : string := "0.0.1".

Definition sizeof_host : Z := 64.
Definition sizeof_buffer : Z := 2048.

Record t : Type := mk {
  mac_ : option string;
  path_ : option string;
  compressed_ : bool;
  persistent_ : bool;
  host_ : string;
  buffer_ : string;
  content_length_offset_ : Z
}.

(** The constructor. *)
Definition init : t :=
  {| mac_ := None; path_ := None; compressed_ := false; persistent_ := true;
     host_ := ""; buffer_ := ""; content_length_offset_ := 0 |}.

Definition with_path (h : t) (p : option string) : t :=
  mk (mac_ h) p (compressed_ h) (persistent_ h) (host_ h) (buffer_ h)
     (content_length_offset_ h).

Definition with_mac (h : t) (m : option string) : t :=
  mk m (path_ h) (compressed_ h) (persistent_ h) (host_ h) (buffer_ h)
     (content_length_offset_ h).

Definition with_host (h : t) (s : string) : t :=
  mk (mac_ h) (path_ h) (compressed_ h) (persistent_ h) s (buffer_ h)
     (content_length_offset_ h).

Definition with_buffer (h : t) (b : string) : t :=
  mk (mac_ h) (path_ h) (compressed_ h) (persistent_ h) (host_ h) b
     (content_length_offset_ h).

Definition with_offset (h : t) (o : Z) : t :=
  mk (mac_ h) (path_ h) (compressed_ h) (persistent_ h) (host_ h) (buffer_ h) o.

Definition with_compressed (h : t) (b : bool) : t :=
  mk (mac_ h) (path_ h) b (persistent_ h) (host_ h) (buffer_ h)
     (content_length_offset_ h).

Definition with_persistent (h : t) (b : bool) : t :=
  mk (mac_ h) (path_ h) (compressed_ h) b (host_ h) (buffer_ h)
     (content_length_offset_ h).

Definition is_null (p : option string) : bool :=
  match p with None => true | Some _ => false end.

(** [SetRequest]: [method] and [ver] are ignored. *)
Definition SetRequest (h : t) (method uri ver : option string) : outcome t :=
  if is_null (path_ h) then Ok (with_path h uri)
  else AssertFail in_SetRequest.

(** [SetField].  [field] is read at once by [strcasecmp], so it is a string;
    [value] may be null, and is read as a string only by the "Host" and
    "Connection" branches. *)
Definition SetField (h : t) (field : string) (value : option string) : outcome t :=
  if LibC.strcasecmp field "Host" =? 0 then
    match value with
    | None => Undefined
    | Some v =>
        match fst (LibC.snprintf sizeof_host v) with
        | Some s => Ok (with_host h s)
        | None => Ok h
        end
    end
  else if (LibC.strcasecmp field "LETV-TV-MAC" =? 0) && is_null (mac_ h) then
    Ok (with_mac h value)
  else if LibC.strcasecmp field "LETV-ZIP" =? 0 then
    let t := negb (is_null value) in
    if negb (Bool.eqb (compressed_ h) t)
    then Ok (with_compressed (with_offset h 0) t)
    else Ok h
  else if LibC.strcasecmp field "Connection" =? 0 then
    match value with
    | None => Undefined
    | Some v =>
        let t := negb (LibC.strcasecmp v "close" =? 0) in
        if negb (Bool.eqb (persistent_ h) t)
        then Ok (with_persistent (with_offset h 0) t)
        else Ok h
    end
  else AssertFail in_SetField.

(** The expansion of [pattern] in [Generate], up to and including
    "Content-Length: ". *)
Definition pattern (path host mac : string) (compressed persistent : bool) : string :=
  "POST " ++ path ++ " HTTP/1.1" ++ Str.CRLF ++
  "Host: " ++ host ++ Str.CRLF ++
  "User-Agent: " ++ program ++ "/" ++ version ++ Str.CRLF ++
  "Accept: */*" ++ Str.CRLF ++
  "LETV-TV-MAC: " ++ mac ++ Str.CRLF ++
  (if compressed then "LETV-ZIP: 1" ++ Str.CRLF else "") ++
  (if persistent then "" else "Connection: close" ++ Str.CRLF) ++
  "Content-Length: ".

(** The first statement of [Generate]: fill [buffer_] when no prefix is
    memoized. *)
Definition fill_prefix (h : t) : outcome t :=
  if content_length_offset_ h =? 0 then
    match path_ h, mac_ h with
    | Some p, Some m =>
        let r := LibC.snprintf sizeof_buffer
                   (pattern p (host_ h) m (compressed_ h) (persistent_ h)) in
        match fst r with
        | Some s => Ok (with_offset (with_buffer h s) (snd r))
        | None => Ok (with_offset h (snd r))
        end
    | _, _ => Undefined
    end
  else Ok h.

(** The text of the second [snprintf]. *)
Definition length_tail (body_size : N) : string :=
  LibC.fmt_zu body_size ++ Str.CRLF ++ Str.CRLF.

(** [Generate(body_size, head_size)]: the new object, the C string in the
    returned [buffer_], and the value stored through [head_size] when that
    pointer is not null.  The second [snprintf] writes at
    [buffer_ + content_length_offset_] with the size
    [sizeof(buffer_) - content_length_offset_] computed in [size_t] (64
    bits); an
    offset outside [0, sizeof(buffer_)] makes that a store outside the
    array. *)
Definition Generate (h : t) (body_size : N) : outcome (t * string * Z) :=
  h1 <- fill_prefix h ;;
  let off := content_length_offset_ h1 in
  if (off <? 0) || (sizeof_buffer <? off) then Undefined
  else
    let size := (sizeof_buffer - off) mod 2 ^ 64 in
    let r := LibC.snprintf size (length_tail body_size) in
    let buf :=
      match fst r with
      | Some s => LibC.store_at (buffer_ h1) (Z.to_nat off) s
      | None => buffer_ h1
      end in
    Ok (with_buffer h1 buf, buf, off + snd r).

(** A sequence of calls on one object. *)
Inductive call : Type :=
| CSetRequest (method uri ver : option string)
| CSetField (field : string) (value : option string)
| CGenerate (body_size : N).

Definition step (h : t) (c : call) : outcome t :=
  match c with
  | CSetRequest m u v => SetRequest h m u v
  | CSetField f v => SetField h f v
  | CGenerate n => r <- Generate h n ;; Ok (fst (fst r))
  end.

Fixpoint run (h : t) (cs : list call) : outcome t :=
  match cs with
  | [] => Ok h
  | c :: cs' => h' <- step h c ;; run h' cs'
  end.

(** *** Sequences of calls and states of the memoized prefix *)

Definition is_SetRequest (c : call) : bool :=
  match c with CSetRequest _ _ _ => true | _ => false end.

Definition sets_mac (c : call) : bool :=
  match c with
  | CSetField f _ => LibC.strcasecmp f "LETV-TV-MAC" =? 0
  | _ => false
  end.

(** The four names [SetField] accepts. *)
Definition known_field (f : string) : bool :=
  (LibC.strcasecmp f "Host" =? 0) || (LibC.strcasecmp f "LETV-TV-MAC" =? 0) ||
  (LibC.strcasecmp f "LETV-ZIP" =? 0) || (LibC.strcasecmp f "Connection" =? 0).

Definition field_known (c : call) : bool :=
  match c with CSetField f _ => known_field f | _ => true end.

Definition times (p : call -> bool) (cs : list call) : nat :=
  List.length (filter p cs).

Definition is_Generate (c : call) : bool :=
  match c with CGenerate _ => true | _ => false end.

(** The calls that set "Host" to a string, and the calls of [Generate]. *)
Definition host_or_generate (c : call) : bool :=
  match c with
  | CSetField f (Some _) => LibC.strcasecmp f "Host" =? 0
  | CGenerate _ => true
  | _ => false
  end.

(** What a call of [Generate] hands to its caller. *)
Definition emitted (r : outcome (t * string * Z)) : option (string * Z) :=
  match r with
  | Ok (_, out, hs) => Some (out, hs)
  | _ => None
  end.

(** The second [snprintf] of [Generate] on a buffer that holds [buf], for an
    offset inside the array. *)
Definition rewrite_tail (buf : string) (off : Z) (body_size : N) : string :=
  if off =? sizeof_buffer then buf
  else LibC.store_at buf (Z.to_nat off)
         (Str.take (Z.to_nat (sizeof_buffer - off - 1)) (length_tail body_size)).

(** The calls of [Generate] that stay inside the array: with no memoized
    prefix both strings are there and the expanded pattern is at most
    [sizeof(buffer_)] long; with one, the offset lies in the array. *)
Definition in_bounds (h : t) : bool :=
  if content_length_offset_ h =? 0 then
    match path_ h, mac_ h with
    | Some p, Some m =>
        Str.len (pattern p (host_ h) m (compressed_ h) (persistent_ h))
          <=? sizeof_buffer
    | _, _ => false
    end
  else (0 <=? content_length_offset_ h) &&
       (content_length_offset_ h <=? sizeof_buffer).

Definition flags (h : t) : bool * bool := (compressed_ h, persistent_ h).

(** The flags [SetField] computes for "LETV-ZIP" and for "Connection". *)
Definition flags_after (h : t) (f : string) (v : option string) : bool * bool :=
  if LibC.strcasecmp f "LETV-ZIP" =? 0 then (negb (is_null v), persistent_ h)
  else match v with
       | Some s => (compressed_ h, negb (LibC.strcasecmp s "close" =? 0))
       | None => flags h
       end.

Definition flags_eqb (a b : bool * bool) : bool :=
  Bool.eqb (fst a) (fst b) && Bool.eqb (snd a) (snd b).

Definition with_flags (h : t) (fl : bool * bool) : t :=
  with_persistent (with_compressed h (fst fl)) (snd fl).

(** [h2] emits what [h1] emits: the same offset, and buffers that give the
    same bytes once the length is written. *)
Definition same_memo (h1 h2 : t) : Prop :=
  content_length_offset_ h2 = content_length_offset_ h1 /\
  forall m : N,
    rewrite_tail (buffer_ h2) (content_length_offset_ h1) m =
    rewrite_tail (buffer_ h1) (content_length_offset_ h1) m.

End PostHeader.

(** ** The option -d of main.cc *)

Module Main.

Definition sizeof_destination : Z := 1024.

(** Case 'd' of [ParseOptions]:
    [strncpy(destination, optarg, sizeof(destination) - 1)] on the array
    [destination[1024]], whose last element stays the zero it starts as. *)
Definition ParseOptions_d (optarg : string) : string :=
  Str.take (Z.to_nat (sizeof_destination - 1)) optarg.

End Main.

(** ** The wire format as the design document words it *)

Module Wire.

(** The request head for a body of [body_size] bytes: the request line, the
    fixed fields, the compression flag when compression is on, the
    [Connection: close] field when the connection is not persistent, then
    [Content-Length] and the empty line. *)
Definition request_head (path host mac : string) (compressed persistent : bool)
    (body_size : N) : string :=
  ("POST " ++ path ++ " HTTP/1.1" ++ Str.CRLF) ++
  ("Host: " ++ host ++ Str.CRLF) ++
  ("User-Agent: pipe/0.0.1" ++ Str.CRLF) ++
  ("Accept: */*" ++ Str.CRLF) ++
  ("LETV-TV-MAC: " ++ mac ++ Str.CRLF) ++
  (if compressed then "LETV-ZIP: 1" ++ Str.CRLF else "") ++
  (if persistent then "" else "Connection: close" ++ Str.CRLF) ++
  ("Content-Length: " ++ LibC.fmt_zu body_size ++ Str.CRLF ++ Str.CRLF).

End Wire.

(** ** The policies of HttpPipe (pipe.h declares them) *)

Module RateGovernor.

(** Modelled from the spec: the body of the pacing computation of
    [HttpPipe] (pipe.cc) is missing; pipe.h only declares [transfer_rate_],
    [milestone], [out_offset_], [out_length_] and [buffer_size_].  The
    allowance of a tick is [R * dt / 1_000_000] rounded down, clamped to the
    unsent body bytes and to the buffer capacity. *)
Definition allowance (transfer_rate_ elapsed_usec remaining buffer_size_ : Z) : Z :=
  Z.min (Z.min (transfer_rate_ * elapsed_usec / 1000000) remaining) buffer_size_.

End RateGovernor.

Module TransferWindowGuard.

Inductive tick : Type := Idle | Busy.

Record counters : Type := mkCounters {
  idle_transfer_n : Z;
  busy_transfer_n : Z
}.

Definition zero : counters := mkCounters 0 0.

(** Modelled from the spec: the body of [HttpPipe::CheckTransfer] (pipe.cc)
    is missing; pipe.h declares it with the two counts and the fields
    [idle_transfer_] and [busy_transfer_].  A transfer is allowed when the
    tick is idle and the idle count is below the idle limit, or the tick is
    busy and the busy count is below the busy limit. *)
Definition CheckTransfer (idle_transfer_ busy_transfer_ : Z) (c : counters)
    (k : tick) : bool :=
  match k with
  | Idle => idle_transfer_n c <? idle_transfer_
  | Busy => busy_transfer_n c <? busy_transfer_
  end.

(** What the loop meets: a tick of either kind, or the start of the next
    [interval]-second window. *)
Inductive event : Type :=
| Tick (k : tick)
| WindowStart.

Definition count_transfer (c : counters) (k : tick) : counters :=
  match k with
  | Idle => mkCounters (idle_transfer_n c + 1) (busy_transfer_n c)
  | Busy => mkCounters (idle_transfer_n c) (busy_transfer_n c + 1)
  end.

(** Modelled from the spec: the window bookkeeping of [HttpPipe::Serve]
    (pipe.cc) is missing.  A permitted tick performs its transfer, which is
    counted; a window start sets both counts to zero.  The result carries
    the transfer performed, if any. *)
Definition on_event (idle_transfer_ busy_transfer_ : Z) (c : counters)
    (e : event) : counters * option tick :=
  match e with
  | Tick k =>
      if CheckTransfer idle_transfer_ busy_transfer_ c k
      then (count_transfer c k, Some k)
      else (c, None)
  | WindowStart => (zero, None)
  end.

(** The transfers performed, window by window: [cur] collects those of the
    window in progress, and the windows come out in order. *)
Fixpoint windows (idle_transfer_ busy_transfer_ : Z) (c : counters)
    (cur : list tick) (es : list event) : list (list tick) :=
  match es with
  | [] => [cur]
  | e :: es' =>
      let r := on_event idle_transfer_ busy_transfer_ c e in
      match e with
      | WindowStart =>
          cur :: windows idle_transfer_ busy_transfer_ (fst r) [] es'
      | Tick _ =>
          windows idle_transfer_ busy_transfer_ (fst r)
            (match snd r with Some k => cur ++ [k] | None => cur end) es'
      end
  end.

Definition is_idle (k : tick) : bool :=
  match k with Idle => true | Busy => false end.

Definition idle_in (w : list tick) : Z := Z.of_nat (List.length (filter is_idle w)).
Definition busy_in (w : list tick) : Z :=
  Z.of_nat (List.length (filter (fun k => negb (is_idle k)) w)).

(** The counts are those of the transfers of the window in progress, and
    within the limits. *)
Definition counted (idle busy : Z) (c : counters) (cur : list tick) : Prop :=
  idle_transfer_n c = idle_in cur /\ busy_transfer_n c = busy_in cur /\
  idle_in cur <= idle /\ busy_in cur <= busy.

Definition within (idle busy : Z) (w : list tick) : Prop :=
  idle_in w <= idle /\ busy_in w <= busy.

End TransferWindowGuard.

Module Engine.
Local Open Scope list_scope.

Definition byte : Type := Byte.byte.

(** Modelled from the spec: pipe.cc, which uses the fields pipe.h declares,
    is missing.  The part of [HttpPipe] the retry argument is about, with
    the two ends of the pipe: [source] is what the input descriptor still
    holds, [inbuf_] the bytes read and not yet acknowledged, [wire] the body
    bytes the server has received on the connection in use, and [delivered]
    the bodies of the requests whose response was read in full. *)
Record state : Type := mk {
  source : list byte;
  inbuf_ : list byte;
  in_flight : bool;
  out_offset_ : nat;
  content_length_ : nat;
  content_length_backup_ : nat;
  connect_retry_n_ : nat;
  wire : list byte;
  delivered : list (list byte)
}.

(** Modelled from the spec: the body of [HttpPipe::Init] (pipe.cc) is
    missing.  It resets the buffers; [input] is what the descriptor will
    give. *)
Definition Init (input : list byte) : state :=
  mk input [] false 0 0 0 0 [] [].

(** Modelled from the spec: the body of [HttpPipe::Rollback] (pipe.cc) is
    missing.  The body offset is reset to 0 and the body length is restored
    from the backup. *)
Definition Rollback (s : state) : state :=
  mk (source s) (inbuf_ s) (in_flight s) 0 (content_length_backup_ s)
     (content_length_backup_ s) (connect_retry_n_ s) (wire s) (delivered s).

Inductive io_event : Type :=
| ReadInput (n : nat)
| StartTransfer
| SendBody (n : nat)
| SocketError
| ResponseComplete.

(** Modelled from the spec: the bodies of [HttpPipe::ReadInput],
    [SendBody], [HandleError] and [HandleHttpResponse] (pipe.cc) are
    missing.  Without compression:
    - a read takes at most [n] bytes and at most the free capacity, and
      appends them to the input buffer;
    - a transaction starts on a non-empty buffer when none is in flight; its
      body is the buffered bytes, and their number is kept as the length and
      as its backup;
    - a send writes at most [n] of the body bytes from the body offset on
      and advances the offset;
    - a socket error closes the connection (what the server had received on
      it is void), rolls back and counts a retry; the counter starts again
      when it reaches the retry limit;
    - a complete response, which can only follow a completely sent body,
      acknowledges the body: the server has it, and the buffer drops it. *)
Definition handle (buffer_size_ connect_retry_ : nat) (s : state) (e : io_event) : state :=
  match e with
  | ReadInput n =>
      let k := Nat.min n (buffer_size_ - List.length (inbuf_ s)) in
      mk (skipn k (source s)) (inbuf_ s ++ firstn k (source s)) (in_flight s)
         (out_offset_ s) (content_length_ s) (content_length_backup_ s)
         (connect_retry_n_ s) (wire s) (delivered s)
  | StartTransfer =>
      if in_flight s then s
      else match inbuf_ s with
           | [] => s
           | _ :: _ =>
               mk (source s) (inbuf_ s) true 0 (List.length (inbuf_ s))
                  (List.length (inbuf_ s)) (connect_retry_n_ s) [] (delivered s)
           end
  | SendBody n =>
      if in_flight s then
        let k := Nat.min n (content_length_ s - out_offset_ s) in
        mk (source s) (inbuf_ s) true (out_offset_ s + k) (content_length_ s)
           (content_length_backup_ s) (connect_retry_n_ s)
           (wire s ++ firstn k (skipn (out_offset_ s) (inbuf_ s))) (delivered s)
      else s
  | SocketError =>
      if in_flight s then
        let r := Rollback s in
        mk (source r) (inbuf_ r) true (out_offset_ r) (content_length_ r)
           (content_length_backup_ r)
           (if (S (connect_retry_n_ r) <? connect_retry_)%nat
            then S (connect_retry_n_ r) else 0%nat)
           [] (delivered r)
      else s
  | ResponseComplete =>
      if in_flight s && (out_offset_ s =? content_length_ s)%nat then
        mk (source s) (skipn (content_length_ s) (inbuf_ s)) false 0 0 0 0 []
           (delivered s ++ [wire s])
      else s
  end.

(** Modelled from the spec: the body of [HttpPipe::Serve] (pipe.cc) is
    missing.  The loop handles what it meets, one after the other. *)
Definition Serve (buffer_size_ connect_retry_ : nat) (s : state)
    (es : list io_event) : state :=
  fold_left (handle buffer_size_ connect_retry_) es s.

(** A run on which every send goes through: the transaction in flight, if
    any, is completed, what is buffered is sent, and then the loop reads,
    sends and is answered, [rounds] times; [n] bounds each send. *)
Definition flush (n : nat) : list io_event :=
  [SendBody n; ResponseComplete; StartTransfer; SendBody n; ResponseComplete].

Definition round (buffer_size_ n : nat) : list io_event :=
  [ReadInput buffer_size_; StartTransfer; SendBody n; ResponseComplete].

Fixpoint rounds (k buffer_size_ n : nat) : list io_event :=
  match k with
  | O => []
  | S k' => round buffer_size_ n ++ rounds k' buffer_size_ n
  end.

Definition drain (buffer_size_ : nat) (s : state) : list io_event :=
  let n := (List.length (inbuf_ s) + buffer_size_)%nat in
  flush n ++ rounds (List.length (source s)) buffer_size_ n.

(** In a transaction, the server holds the body up to the offset, the
    offset is within the body, the body is buffered, and the backup is the
    body length. *)
Definition consistent (s : state) : Prop :=
  in_flight s = true ->
  wire s = firstn (out_offset_ s) (inbuf_ s) /\
  (out_offset_ s <= content_length_ s)%nat /\
  (content_length_ s <= List.length (inbuf_ s))%nat /\
  content_length_backup_ s = content_length_ s.

(** Nothing is lost and nothing is there twice: the acknowledged bodies,
    the buffered bytes and the unread input make up the input. *)
Definition conserved (input : list byte) (s : state) : Prop :=
  List.concat (delivered s) ++ inbuf_ s ++ source s = input.

End Engine.

(** ** Concrete inputs *)

Module Scenario.
Import PostHeader.

Definition mac : string := "0011223344ff".
Definition long_host : string := Str.fill "a" 70.
Definition long_path : string := String "/" (Str.fill "p" 1929).
Definition long_destination : string := "letv://example.org/" ++ Str.fill "p" 3000.

Definition request (uri : string) : call :=
  CSetRequest (Some "POST") (Some uri) (Some "HTTP/1.1").

(** The object after the request line, the host and the MAC are set, and
    after a first [Generate] for a body of 10 bytes. *)
Definition ready : t :=
  mk (Some mac) (Some "/up") false true "example.org" "" 0.

Definition memoized : t :=
  match Generate ready 10 with
  | Ok (h, _, _) => h
  | _ => ready
  end.

(** Three bytes of input, and a run with a buffer of two bytes in which the
    first transaction meets a socket error after one byte. *)
Definition payload : list Byte.byte := [Byte.x61; Byte.x62; Byte.x63].

Definition retried_run : list Engine.io_event :=
  [Engine.ReadInput 8; Engine.StartTransfer; Engine.SendBody 1;
   Engine.SocketError; Engine.ReadInput 8; Engine.SendBody 8;
   Engine.ResponseComplete; Engine.ReadInput 8; Engine.StartTransfer;
   Engine.SendBody 8; Engine.ResponseComplete].

(** Ticks of two windows, with more of each kind than the limits 1 and 3. *)
Definition two_windows : list TransferWindowGuard.event :=
  [TransferWindowGuard.Tick TransferWindowGuard.Idle;
   TransferWindowGuard.Tick TransferWindowGuard.Idle;
   TransferWindowGuard.Tick TransferWindowGuard.Busy;
   TransferWindowGuard.Tick TransferWindowGuard.Busy;
   TransferWindowGuard.Tick TransferWindowGuard.Busy;
   TransferWindowGuard.Tick TransferWindowGuard.Busy;
   TransferWindowGuard.WindowStart;
   TransferWindowGuard.Tick TransferWindowGuard.Busy;
   TransferWindowGuard.Tick TransferWindowGuard.Idle;
   TransferWindowGuard.Tick TransferWindowGuard.Idle].

End Scenario.

(** ** The numeric options of main.cc *)

Module Strto.

Definition code (c : ascii) : Z := Z.of_nat (nat_of_ascii c).

(** [isspace] in the C locale. *)
Definition isspace (c : ascii) : bool :=
  (code c =? 32) || ((9 <=? code c) && (code c <=? 13)).

Definition isdigit (c : ascii) : bool := (48 <=? code c) && (code c <=? 57).

Fixpoint skip_space (s : string) : string :=
  match s with
  | String c s' => if isspace c then skip_space s' else s
  | EmptyString => s
  end.

(** The digits at the head of [s], read in base 10 onto [acc], and what
    follows them. *)
Fixpoint digits (acc : Z) (s : string) : Z * string :=
  match s with
  | String c s' => if isdigit c then digits (10 * acc + (code c - 48)) s' else (acc, s)
  | EmptyString => (acc, s)
  end.

(** The optional sign. *)
Definition sign (s : string) : bool * string :=
  match s with
  | String "-" s' => (true, s')
  | String "+" s' => (false, s')
  | _ => (false, s)
  end.

Definition starts_with_digit (s : string) : bool :=
  match s with String c _ => isdigit c | EmptyString => false end.

Definition ULONG_MAX : Z := 2 ^ 64 - 1.
Definition LONG_MAX : Z := 2 ^ 63 - 1.
Definition LONG_MIN : Z := - 2 ^ 63.

(** [strtoul(s, &endptr, 10)]: the value, what [endptr] points at, and
    whether [errno] is set (to ERANGE).  White space and one sign are
    skipped; with no digit after them nothing is converted, [endptr] is [s]
    and [errno] is left alone, as in glibc; a value past [ULONG_MAX] gives
    [ULONG_MAX]; a minus sign negates in [unsigned long]. *)
Definition strtoul (s : string) : Z * string * bool :=
  let (neg, s') := sign (skip_space s) in
  if starts_with_digit s' then
    let (v, rest) := digits 0 s' in
    if ULONG_MAX <? v then (ULONG_MAX, rest, true)
    else (if neg then (- v) mod 2 ^ 64 else v, rest, false)
  else (0, s, false).

(** [strtol(s, NULL, 10)], which clamps to [LONG_MIN] and [LONG_MAX]. *)
Definition strtol (s : string) : Z :=
  let (neg, s') := sign (skip_space s) in
  if starts_with_digit s' then
    let v := fst (digits 0 s') in
    if neg then Z.max LONG_MIN (- v) else Z.min LONG_MAX v
  else 0.

(** The conversion of a [long] to [int], and of an [int] to [size_t]. *)
Definition to_int (z : Z) : Z := (z + 2 ^ 31) mod 2 ^ 32 - 2 ^ 31.
Definition to_size_t (z : Z) : Z := z mod 2 ^ 64.

(** [atoi], which is [(int) strtol(s, NULL, 10)]. *)
Definition atoi (s : string) : Z := to_int (strtol s).

(** What [*endptr] reads: the character [endptr] points at, NUL at the
    end of the string. *)
Definition deref (s : string) : ascii :=
  match s with String c _ => c | EmptyString => zero end.

(** Whether [strtoul] and [strtol] find no number in [s]: no digit after
    the white space and the sign. *)
Definition no_number (s : string) : bool :=
  negb (starts_with_digit (snd (sign (skip_space s)))).

(** The number a decimal numeral writes, read onto [acc]. *)
Fixpoint uint_val (d : Decimal.uint) (acc : Z) : Z :=
  match d with
  | Decimal.Nil => acc
  | Decimal.D0 d' => uint_val d' (10 * acc + 0)
  | Decimal.D1 d' => uint_val d' (10 * acc + 1)
  | Decimal.D2 d' => uint_val d' (10 * acc + 2)
  | Decimal.D3 d' => uint_val d' (10 * acc + 3)
  | Decimal.D4 d' => uint_val d' (10 * acc + 4)
  | Decimal.D5 d' => uint_val d' (10 * acc + 5)
  | Decimal.D6 d' => uint_val d' (10 * acc + 6)
  | Decimal.D7 d' => uint_val d' (10 * acc + 7)
  | Decimal.D8 d' => uint_val d' (10 * acc + 8)
  | Decimal.D9 d' => uint_val d' (10 * acc + 9)
  end.

End Strto.

(** A function of main.cc returns, or the process exits through [exit],
    [err] or [errx]. *)
Inductive exits (A : Type) : Type :=
| Returns (a : A)
| Exits (status : Z).

Arguments Returns {A} a.
Arguments Exits {A} status.

Module Options.

(** What a [switch] on [*endptr] does with the value: [break], multiply
    in [size_t], or [errx]. *)
Inductive suffix : Type :=
| Plain
| Times (unit : Z)
| Refused.

(** The end of [ParseSize], [ParseRate] and [ParseInterval]: [err] when
    [errno] is set, then the [switch] on [*endptr]. *)
Definition scaled (cases : ascii -> suffix) (r : Z * string * bool) : exits Z :=
  let '(value, endptr, erange) := r in
  if erange then Exits 1
  else match cases (Strto.deref endptr) with
       | Plain => Returns value
       | Times u => Returns ((value * u) mod 2 ^ 64)
       | Refused => Exits 1
       end.

Definition size_unit (c : ascii) : suffix :=
  match c with
  | "000" => Plain
  | "k" | "K" => Times 1024
  | "m" | "M" => Times (1024 * 1024)
  | _ => Refused
  end%char.

Definition rate_unit (c : ascii) : suffix :=
  match c with
  | "000" => Plain
  | "k" | "K" => Times 1000
  | "m" | "M" => Times 1000000
  | _ => Refused
  end%char.

Definition interval_unit (c : ascii) : suffix :=
  match c with
  | "000" | "s" | "S" => Plain
  | "m" | "M" => Times 60
  | "h" | "H" => Times 3600
  | _ => Refused
  end%char.

Definition ParseSize (s : string) : exits Z :=
  scaled size_unit (Strto.strtoul s).

Definition ParseRate (s : string) : exits Z :=
  match scaled rate_unit (Strto.strtoul s) with
  | Returns value => Returns (value / 8)
  | Exits st => Exits st
  end.

Definition ParseInterval (s : string) : exits Z :=
  scaled interval_unit (Strto.strtoul s).

(** The variables [ParseOptions] sets. *)
Record t : Type := mk {
  enable_verbose : bool;
  short_transaction : bool;
  destination : string;
  buffer_size : Z;
  transfer_rate : Z;
  connect_retry : Z;
  idle_transfer_interval : Z;
  idle_transfer_idle_limit : Z;
  idle_transfer_busy_limit : Z;
  zip_level : Z
}.

(** Their initial values. *)
Definition initial : t :=
  mk false false "" (1024 * 1024) 12500 3 300 1 3 0.

Definition set_number (k : Z -> t) (r : exits Z) : exits t :=
  match r with
  | Returns v => Returns (k v)
  | Exits st => Exits st
  end.

(** One turn of the loop of [ParseOptions], for what [getopt] returned: the
    option character and [optarg].  [Usage] and [Version] exit with 0; the
    [default] case, which [getopt] reaches with '?', exits with 1. *)
Definition option_case (o : t) (opt : ascii) (optarg : string) : exits t :=
  match opt with
  | "V" => Returns (mk true (short_transaction o) (destination o) (buffer_size o)
                      (transfer_rate o) (connect_retry o) (idle_transfer_interval o)
                      (idle_transfer_idle_limit o) (idle_transfer_busy_limit o)
                      (zip_level o))
  | "h" => Exits 0
  | "v" => Exits 0
  | "S" => Returns (mk (enable_verbose o) true (destination o) (buffer_size o)
                      (transfer_rate o) (connect_retry o) (idle_transfer_interval o)
                      (idle_transfer_idle_limit o) (idle_transfer_busy_limit o)
                      (zip_level o))
  | "d" => Returns (mk (enable_verbose o) (short_transaction o)
                      (Main.ParseOptions_d optarg) (buffer_size o)
                      (transfer_rate o) (connect_retry o) (idle_transfer_interval o)
                      (idle_transfer_idle_limit o) (idle_transfer_busy_limit o)
                      (zip_level o))
  | "c" => Returns (mk (enable_verbose o) (short_transaction o) (destination o)
                      (buffer_size o) (transfer_rate o) (connect_retry o)
                      (idle_transfer_interval o) (idle_transfer_idle_limit o)
                      (idle_transfer_busy_limit o)
                      (Strto.to_size_t (Strto.atoi optarg)))
  | "s" => set_number
             (fun v => mk (enable_verbose o) (short_transaction o) (destination o) v
                         (transfer_rate o) (connect_retry o) (idle_transfer_interval o)
                         (idle_transfer_idle_limit o) (idle_transfer_busy_limit o)
                         (zip_level o))
             (ParseSize optarg)
  | "r" => set_number
             (fun v => mk (enable_verbose o) (short_transaction o) (destination o)
                         (buffer_size o) v (connect_retry o) (idle_transfer_interval o)
                         (idle_transfer_idle_limit o) (idle_transfer_busy_limit o)
                         (zip_level o))
             (ParseRate optarg)
  | "n" => Returns (mk (enable_verbose o) (short_transaction o) (destination o)
                      (buffer_size o) (transfer_rate o)
                      (Strto.to_size_t (Strto.atoi optarg))
                      (idle_transfer_interval o) (idle_transfer_idle_limit o)
                      (idle_transfer_busy_limit o) (zip_level o))
  | "i" => set_number
             (fun v => mk (enable_verbose o) (short_transaction o) (destination o)
                         (buffer_size o) (transfer_rate o) (connect_retry o) v
                         (idle_transfer_idle_limit o) (idle_transfer_busy_limit o)
                         (zip_level o))
             (ParseInterval optarg)
  | "l" => Returns (mk (enable_verbose o) (short_transaction o) (destination o)
                      (buffer_size o) (transfer_rate o) (connect_retry o)
                      (idle_transfer_interval o)
                      (Strto.to_size_t (Strto.atoi optarg))
                      (idle_transfer_busy_limit o) (zip_level o))
  | "L" => Returns (mk (enable_verbose o) (short_transaction o) (destination o)
                      (buffer_size o) (transfer_rate o) (connect_retry o)
                      (idle_transfer_interval o) (idle_transfer_idle_limit o)
                      (Strto.to_size_t (Strto.atoi optarg)) (zip_level o))
  | _ => Exits 1
  end%char.

(** The loop, over what the successive calls of [getopt] return before -1. *)
Fixpoint option_loop (o : t) (gs : list (ascii * string)) : exits t :=
  match gs with
  | [] => Returns o
  | (opt, optarg) :: gs' =>
      match option_case o opt optarg with
      | Returns o' => option_loop o' gs'
      | Exits st => Exits st
      end
  end.

(** [ParseOptions]: the loop, then [errx] when no destination is there. *)
Definition ParseOptions (gs : list (ascii * string)) : exits t :=
  match option_loop initial gs with
  | Returns o =>
      match destination o with
      | EmptyString => Exits 1
      | String _ _ => Returns o
      end
  | Exits st => Exits st
  end.

(** The options read with [atoi], each with the variable it sets. *)
Definition atoi_options : list (ascii * (t -> Z)) :=
  [("c"%char, zip_level); ("n"%char, connect_retry);
   ("l"%char, idle_transfer_idle_limit); ("L"%char, idle_transfer_busy_limit)].

(** The last [-d] among what [getopt] returned. *)
Fixpoint last_d (gs : list (ascii * string)) : option string :=
  match gs with
  | [] => None
  | (opt, optarg) :: gs' =>
      match last_d gs' with
      | Some a => Some a
      | None => if Ascii.eqb opt "d" then Some optarg else None
      end
  end.

(** The argument of the last option [c] among what [getopt] returned. *)
Fixpoint last_arg (c : ascii) (gs : list (ascii * string)) : option string :=
  match gs with
  | [] => None
  | (opt, optarg) :: gs' =>
      match last_arg c gs' with
      | Some a => Some a
      | None => if Ascii.eqb opt c then Some optarg else None
      end
  end.

Definition given (c : ascii) (gs : list (ascii * string)) : bool :=
  match last_arg c gs with Some _ => true | None => false end.

(** What [atoi] makes of an argument, as it is stored in a [size_t]. *)
Definition by_atoi (optarg : string) : exits Z :=
  Returns (Strto.to_size_t (Strto.atoi optarg)).

(** A variable holds [v]: what [parse] made of the argument [a], or the
    former value [v0] when there is no argument. *)
Definition settled (parse : string -> exits Z) (a : option string) (v0 v : Z) : Prop :=
  match a with
  | Some x => parse x = Returns v
  | None => v = v0
  end.

End Options.

(** ** The hardware address of main.cc *)

Module Mac.

(** One hexadecimal digit of [%x]. *)
Definition hex (v : Z) : ascii :=
  ascii_of_nat (Z.to_nat (if v <? 10 then 48 + v else 87 + v)).

(** The conversion [%02x] of an [unsigned char]. *)
Definition fmt_02x (b : ascii) : string :=
  String (hex (Strto.code b / 16)) (String (hex (Strto.code b mod 16)) EmptyString).

Definition sizeof_mac_address : Z := 128.

(** The loop of [GetMacAddress] over the six bytes at [from]: each turn
    stores one conversion at [to + n] and adds the returned count to [n]. *)
Fixpoint format_loop (from : list ascii) (turns : nat) (i : nat) (n : Z)
    (mac_address : string) : string :=
  match turns with
  | O => mac_address
  | S turns' =>
      let r := LibC.snprintf ((sizeof_mac_address - n) mod 2 ^ 64)
                 (fmt_02x (nth i from zero)) in
      format_loop from turns' (S i) (n + snd r)
        (match fst r with
         | Some s => LibC.store_at mac_address (Z.to_nat n) s
         | None => mac_address
         end)
  end.

Definition format_mac (from : list ascii) : string :=
  format_loop from 6 0 0 "".

(** The value of a hexadecimal digit, and the bytes two digits make. *)
Definition unhex (c : ascii) : Z :=
  if Strto.code c <? 58 then Strto.code c - 48 else Strto.code c - 87.

Fixpoint decode (s : string) : list ascii :=
  match s with
  | String a (String b s') =>
      ascii_of_nat (Z.to_nat (16 * unhex a + unhex b)) :: decode s'
  | _ => []
  end.

Definition is_lower_hex (c : ascii) : bool :=
  Strto.isdigit c || ((97 <=? Strto.code c) && (Strto.code c <=? 102)).

Fixpoint all_chars (p : ascii -> bool) (s : string) : bool :=
  match s with
  | EmptyString => true
  | String c s' => p c && all_chars p s'
  end.

End Mac.

(** ** The header in the program *)

Module Program.
Import PostHeader.

(** The calls [main] makes on the header before it hands it to the pipe:
    the MAC, then [Connection: close] with the option [-S]. *)
Definition main_header (short_transaction : bool) (mac : string) : list call :=
  CSetField "LETV-TV-MAC" (Some mac) ::
  (if short_transaction then [CSetField "Connection" (Some "close")] else []).

(** The strings the program can hand to the header: a request path fits
    [destination[1024]], and a MAC fits [mac_address[128]]. *)
Definition within_bounds (c : call) : bool :=
  match c with
  | CSetRequest _ (Some uri) _ => (String.length uri <=? 1023)%nat
  | CSetField f (Some v) =>
      if LibC.strcasecmp f "LETV-TV-MAC" =? 0
      then (String.length v <=? 127)%nat
      else true
  | _ => true
  end.

(** [buffer_] holds the memoized prefix, cut at the end of the array. *)
Definition covers (h : t) : Prop :=
  content_length_offset_ h = 0 \/
  (0 < content_length_offset_ h <= sizeof_buffer /\
   Z.min (content_length_offset_ h) 2047 <= Str.len (buffer_ h) <= 2047).

Definition short_enough (bound : Z) (p : option string) : Prop :=
  match p with
  | Some s => Str.len s <= bound
  | None => True
  end.

(** The object holds strings of the program's sizes, and a memoized prefix
    made of such strings. *)
Definition small (h : t) : Prop :=
  short_enough 1023 (path_ h) /\ short_enough 127 (mac_ h) /\
  Str.len (host_ h) <= 63 /\
  (content_length_offset_ h = 0 \/
   (0 < content_length_offset_ h <= 1337 /\
    content_length_offset_ h <= Str.len (buffer_ h) <= 2047)).

(** A call that sets the request or the host: what is left to the pipe
    once [main] has set the MAC and the connection flag. *)
Definition request_or_host (c : call) : bool :=
  match c with
  | CSetRequest _ _ _ => true
  | CSetField f (Some _) => LibC.strcasecmp f "Host" =? 0
  | _ => false
  end.

End Program.

(** ** main *)

Module Startup.
Import PostHeader.

Section Main.

(** The pipe: [HttpPipe::Init], the setters, [SetHeader] and [Serve] are
    declared in pipe.h and defined in pipe.cc, which is not under src/.
    What they do with the variables [ParseOptions] left and with the header
    is a parameter. *)
Variable Run : Type.
Variable pipe : Options.t -> PostHeader.t -> Run.

(** [main], for what [getopt] returns and for what [GetMacAddress] does: it
    returns the text of an address or exits through [err].  The calls of
    [signal] come first and change nothing of what follows.  [ParseOptions]
    runs first and may exit; then the header is built, and its calls may
    stop at an assertion; then the pipe gets the variables and the header. *)
Definition main (mac_address : exits string) (gs : list (ascii * string))
  : exits (outcome Run) :=
  match Options.ParseOptions gs with
  | Exits st => Exits st
  | Returns o =>
      match mac_address with
      | Exits st => Exits st
      | Returns mac =>
          Returns (h <- run init
                          (Program.main_header (Options.short_transaction o) mac) ;;
                   Ok (pipe o h))
      end
  end.

End Main.

Arguments main {Run} pipe mac_address gs.

End Startup.

(** * Part II: the properties *)

(** ** Facts about strings *)

Section StrFacts.

Lemma str_length_app (a b : string) :
  String.length (a ++ b) = (String.length a + String.length b)%nat.
Proof. induction a as [|c a IH]; simpl; [reflexivity | now rewrite IH]. Qed.

Lemma str_app_assoc (a b c : string) : (a ++ b) ++ c = a ++ b ++ c.
Proof. induction a as [|x a IH]; simpl; [reflexivity | now rewrite IH]. Qed.

Lemma take_all (n : nat) (s : string) :
  (String.length s <= n)%nat -> Str.take n s = s.
Proof.
  revert n; induction s as [|c s IH]; intros [|n] H; simpl in *;
    try reflexivity; try lia.
  now rewrite IH by lia.
Qed.

Lemma length_take (n : nat) (s : string) :
  String.length (Str.take n s) = Nat.min n (String.length s).
Proof.
  revert n; induction s as [|c s IH]; intros [|n]; simpl; try reflexivity.
  now rewrite IH.
Qed.

Lemma take_app_le (n : nat) (a b : string) :
  (n <= String.length a)%nat -> Str.take n (a ++ b) = Str.take n a.
Proof.
  revert n; induction a as [|c a IH]; intros [|n] H; simpl in *;
    try reflexivity; try lia.
  now rewrite IH by lia.
Qed.

Lemma take_app_ge (n : nat) (a b : string) :
  (String.length a <= n)%nat ->
  Str.take n (a ++ b) = a ++ Str.take (n - String.length a) b.
Proof.
  revert n; induction a as [|c a IH]; intros n H; simpl in *.
  - now rewrite Nat.sub_0_r.
  - destruct n as [|n]; [lia |]. simpl. now rewrite IH by lia.
Qed.

Lemma take_take (n m : nat) (s : string) :
  Str.take n (Str.take m s) = Str.take (Nat.min n m) s.
Proof.
  revert n m; induction s as [|c s IH]; intros [|n] [|m]; simpl;
    try reflexivity.
  now rewrite IH.
Qed.

Lemma len_app (a b : string) : Str.len (a ++ b) = Str.len a + Str.len b.
Proof. unfold Str.len. rewrite str_length_app. lia. Qed.

Lemma len_nonneg (a : string) : 0 <= Str.len a.
Proof. unfold Str.len. lia. Qed.

(** Storing twice at the same offset keeps the second text only. *)
Lemma store_at_twice (buf : string) (off : nat) (s s' : string) :
  LibC.store_at (LibC.store_at buf off s) off s' = LibC.store_at buf off s'.
Proof.
  unfold LibC.store_at.
  destruct (off <=? String.length buf)%nat eqn:E.
  - apply Nat.leb_le in E.
    assert (L : String.length (Str.take off buf) = off)
      by (rewrite length_take; lia).
    replace (off <=? String.length (Str.take off buf ++ s))%nat with true
      by (symmetry; apply Nat.leb_le; rewrite str_length_app; lia).
    rewrite take_app_le by lia.
    rewrite take_take, Nat.min_id. reflexivity.
  - now rewrite E.
Qed.

Lemma take_store_at (buf : string) (off : nat) (s : string) :
  Str.take off (LibC.store_at buf off s) = Str.take off buf.
Proof.
  unfold LibC.store_at.
  destruct (off <=? String.length buf)%nat eqn:E; [| reflexivity].
  apply Nat.leb_le in E.
  rewrite take_app_le by (rewrite length_take; lia).
  rewrite take_take, Nat.min_id. reflexivity.
Qed.

Lemma strcasecmp_zero (a b : string) :
  LibC.strcasecmp a b = 0 <-> LibC.lowered a = LibC.lowered b.
Proof.
  revert b; induction a as [|c a IH]; intros [|d b]; simpl.
  - tauto.
  - destruct (Z.eqb_spec (LibC.tolower d) 0); split; intros; try easy; lia.
  - destruct (Z.eqb_spec (LibC.tolower c) 0); split; intros; try easy; lia.
  - destruct (Z.eqb_spec (LibC.tolower c) (LibC.tolower d)) as [E | E].
    + rewrite <- E.
      destruct (Z.eqb_spec (LibC.tolower c) 0); [tauto |].
      rewrite IH. split; intros H; [now rewrite H | now inversion H].
    + destruct (Z.eqb_spec (LibC.tolower c) 0),
               (Z.eqb_spec (LibC.tolower d) 0);
        split; intros H; try lia; try discriminate.
      inversion H; lia.
Qed.

(** A name that matches [a] does not match a name that differs from [a]. *)
Lemma strcasecmp_other (f a b : string) :
  LibC.lowered a <> LibC.lowered b ->
  LibC.strcasecmp f a = 0 -> (LibC.strcasecmp f b =? 0) = false.
Proof.
  intros Hab Ha. apply Z.eqb_neq. intros Hb.
  apply strcasecmp_zero in Ha, Hb. congruence.
Qed.

End StrFacts.

(** ** PostHeader: what a call leaves alone *)

Module PostHeaderFacts.
Import PostHeader.

(** A name that matches one field does not match another. *)
Ltac other_name :=
  match goal with
  | H : LibC.strcasecmp ?f ?a = 0 |- context [LibC.strcasecmp ?f ?b =? 0] =>
      rewrite (strcasecmp_other f a b) by (exact H || (vm_compute; discriminate))
  end.

Ltac break_SetField :=
  unfold SetField, LibC.snprintf, sizeof_host; simpl fst;
  repeat match goal with
         | |- context [if ?b then _ else _] => destruct b eqn:?
         | |- context [match ?v with Some _ => _ | None => _ end] =>
             destruct v eqn:?
         end.

Lemma SetField_path (h h' : t) (f : string) (v : option string) :
  SetField h f v = Ok h' -> path_ h' = path_ h.
Proof.
  revert h'. break_SetField; intros h' E; inversion E; subst; reflexivity.
Qed.

Lemma SetField_not_SetRequest_site (h : t) (f : string) (v : option string) :
  SetField h f v <> AssertFail in_SetRequest.
Proof. break_SetField; discriminate. Qed.

Lemma fill_prefix_cases (h hp : t) :
  fill_prefix h = Ok hp ->
  (content_length_offset_ h <> 0 /\ hp = h) \/
  (exists p m : string,
      content_length_offset_ h = 0 /\ path_ h = Some p /\ mac_ h = Some m /\
      hp = with_offset
             (with_buffer h
                (Str.take 2047
                   (pattern p (host_ h) m (compressed_ h) (persistent_ h))))
             (Str.len (pattern p (host_ h) m (compressed_ h) (persistent_ h)))).
Proof.
  unfold fill_prefix.
  destruct (Z.eqb_spec (content_length_offset_ h) 0) as [E | E].
  - destruct (path_ h) as [p|], (mac_ h) as [m|]; try discriminate.
    intros F. right. exists p, m.
    injection F as <-. repeat split; try assumption; reflexivity.
  - intros F. injection F as <-. left. split; [exact E | reflexivity].
Qed.

Lemma fill_prefix_frame (h h' : t) :
  fill_prefix h = Ok h' ->
  path_ h' = path_ h /\ mac_ h' = mac_ h /\ host_ h' = host_ h /\
  compressed_ h' = compressed_ h /\ persistent_ h' = persistent_ h.
Proof.
  intros F.
  destruct (fill_prefix_cases h h' F) as [[_ ->] | (p & m & _ & _ & _ & ->)];
    repeat split; reflexivity.
Qed.

Lemma fill_prefix_no_assert (h : t) (w : assert_site) :
  fill_prefix h <> AssertFail w.
Proof.
  unfold fill_prefix.
  destruct (content_length_offset_ h =? 0); [| discriminate].
  destruct (path_ h), (mac_ h); discriminate.
Qed.

(** A returning [Generate] changes [buffer_], and what [fill_prefix]
    changes. *)
Lemma Generate_shape (h h' : t) (n : N) (out : string) (hs : Z) :
  Generate h n = Ok (h', out, hs) ->
  exists hp : t,
    fill_prefix h = Ok hp /\ h' = with_buffer hp out /\
    0 <= content_length_offset_ hp <= sizeof_buffer.
Proof.
  unfold Generate.
  destruct (fill_prefix h) as [hp| |]; cbv beta iota delta [bind];
    try discriminate.
  destruct ((content_length_offset_ hp <? 0) ||
            (sizeof_buffer <? content_length_offset_ hp)) eqn:B;
    try discriminate.
  apply orb_false_elim in B as [B1 B2].
  intros E. injection E as E1 E2 E3. subst out h'.
  exists hp. split; [reflexivity |]. split; [reflexivity | lia].
Qed.

Lemma Generate_frame (h h' : t) (n : N) (out : string) (hs : Z) :
  Generate h n = Ok (h', out, hs) ->
  path_ h' = path_ h /\ mac_ h' = mac_ h /\ host_ h' = host_ h /\
  compressed_ h' = compressed_ h /\ persistent_ h' = persistent_ h.
Proof.
  intros G. destruct (Generate_shape _ _ _ _ _ G) as (hp & F & -> & _).
  exact (fill_prefix_frame h hp F).
Qed.

Lemma Generate_no_assert (h : t) (n : N) (w : assert_site) :
  Generate h n <> AssertFail w.
Proof.
  unfold Generate.
  destruct (fill_prefix h) as [h1| |] eqn:F; cbv beta iota delta [bind];
    try discriminate.
  - destruct ((content_length_offset_ h1 <? 0) ||
              (sizeof_buffer <? content_length_offset_ h1)); discriminate.
  - now apply fill_prefix_no_assert in F.
Qed.

Lemma run_cons (h : t) (c : call) (cs : list call) :
  run h (c :: cs) = (h' <- step h c ;; run h' cs).
Proof. reflexivity. Qed.

Lemma times_cons (p : call -> bool) (c : call) (cs : list call) :
  times p (c :: cs) = ((if p c then 1 else 0) + times p cs)%nat.
Proof. unfold times; simpl. now destruct (p c). Qed.

Lemma step_path (h h' : t) (c : call) :
  is_SetRequest c = false -> step h c = Ok h' -> path_ h' = path_ h.
Proof.
  destruct c as [m u v | f v | n]; simpl; try discriminate; intros _.
  - apply SetField_path.
  - destruct (Generate h n) as [[[h1 out] hs]| w |] eqn:G; simpl;
      try discriminate.
    intros E; inversion E; subst. now apply Generate_frame in G.
Qed.

(** A run that contains no [SetRequest] leaves [path_] as it was. *)
Lemma run_keeps_path (cs : list call) (h h' : t) :
  times is_SetRequest cs = 0%nat -> run h cs = Ok h' -> path_ h' = path_ h.
Proof.
  revert h; induction cs as [|c cs IH]; intros h Hn Hr.
  - simpl in Hr. now inversion Hr.
  - rewrite times_cons in Hn. rewrite run_cons in Hr.
    destruct (is_SetRequest c) eqn:Ec; [discriminate |].
    destruct (step h c) as [h1| |] eqn:E; simpl in Hr; try discriminate.
    rewrite (IH h1 Hn Hr). now apply step_path in E.
Qed.

End PostHeaderFacts.

(** ** PostHeader: the two assertions *)

Module PostHeaderContract.
Import PostHeader PostHeaderFacts.

Lemma step_mac (h h' : t) (c : call) :
  sets_mac c = false -> step h c = Ok h' -> mac_ h' = mac_ h.
Proof.
  destruct c as [m u v | f v | n]; simpl.
  - intros _. unfold SetRequest. destruct (is_null (path_ h)); try discriminate.
    intros E; inversion E; reflexivity.
  - intros Hm. unfold SetField. rewrite Hm. simpl andb.
    revert h'. break_SetField; intros h' E; inversion E; subst; reflexivity.
  - intros _. destruct (Generate h n) as [[[h1 out] hs]| w |] eqn:G; simpl;
      try discriminate.
    intros E; inversion E; subst. now apply Generate_frame in G.
Qed.

Lemma step_SetField_site (h : t) (c : call) :
  field_known c = true ->
  (sets_mac c = true -> mac_ h = None) ->
  step h c <> AssertFail in_SetField.
Proof.
  destruct c as [m u v | f v | n]; simpl.
  - intros _ _. unfold SetRequest. destruct (is_null (path_ h)); discriminate.
  - unfold known_field. intros Hk Hm. unfold SetField.
    destruct (LibC.strcasecmp f "Host" =? 0).
    + destruct v; simpl; discriminate.
    + destruct (LibC.strcasecmp f "LETV-TV-MAC" =? 0).
      * rewrite (Hm eq_refl). simpl. discriminate.
      * simpl in Hk. simpl andb.
        destruct (LibC.strcasecmp f "LETV-ZIP" =? 0).
        -- destruct (negb _); discriminate.
        -- simpl in Hk. rewrite Hk. destruct v; [| discriminate].
           destruct (negb _); discriminate.
  - intros _ _. destruct (Generate h n) as [[[h1 out] hs]| w |] eqn:G; simpl;
      try discriminate.
    now apply Generate_no_assert in G.
Qed.

Lemma run_SetField_site (cs : list call) (h : t) :
  forallb field_known cs = true ->
  (mac_ h = None /\ (times sets_mac cs <= 1)%nat) \/ times sets_mac cs = 0%nat ->
  run h cs <> AssertFail in_SetField.
Proof.
  revert h; induction cs as [|c cs IH]; intros h Hk Hm; [discriminate |].
  simpl in Hk. apply andb_prop in Hk as [Hc Hk].
  rewrite times_cons in Hm. rewrite run_cons.
  assert (Hs : step h c <> AssertFail in_SetField).
  { apply step_SetField_site; [exact Hc |].
    intros E. rewrite E in Hm. destruct Hm as [[Hm _] | Hm]; [exact Hm | lia]. }
  destruct (step h c) as [h1| w |] eqn:E; simpl; try discriminate.
  - apply IH; [exact Hk |].
    destruct (sets_mac c) eqn:Em.
    + right. destruct Hm as [[_ Hm] | Hm]; lia.
    + apply step_mac in E; [| exact Em].
      destruct Hm as [[Hm Hn] | Hm]; [left | right]; simpl in *;
        try split; try congruence; lia.
  - destruct w; [discriminate | congruence].
Qed.

Lemma step_SetRequest_site (h : t) (c : call) :
  (is_SetRequest c = true -> path_ h = None) ->
  step h c <> AssertFail in_SetRequest.
Proof.
  destruct c as [m u v | f v | n]; simpl.
  - intros Hp. unfold SetRequest. rewrite (Hp eq_refl). discriminate.
  - intros _. apply SetField_not_SetRequest_site.
  - intros _. destruct (Generate h n) as [[[h1 out] hs]| w |] eqn:G; simpl;
      try discriminate.
    now apply Generate_no_assert in G.
Qed.

Lemma run_SetRequest_site (cs : list call) (h : t) :
  (path_ h = None /\ (times is_SetRequest cs <= 1)%nat) \/
  times is_SetRequest cs = 0%nat ->
  run h cs <> AssertFail in_SetRequest.
Proof.
  revert h; induction cs as [|c cs IH]; intros h Hm; [discriminate |].
  rewrite times_cons in Hm. rewrite run_cons.
  assert (Hs : step h c <> AssertFail in_SetRequest).
  { apply step_SetRequest_site.
    intros E. rewrite E in Hm. destruct Hm as [[Hm _] | Hm]; [exact Hm | lia]. }
  destruct (step h c) as [h1| w |] eqn:E; simpl; try discriminate.
  - apply IH.
    destruct (is_SetRequest c) eqn:Em.
    + right. destruct Hm as [[_ Hm] | Hm]; lia.
    + apply step_path in E; [| exact Em].
      destruct Hm as [[Hm Hn] | Hm]; [left | right]; simpl in *;
        try split; try congruence; lia.
  - destruct w; [congruence | discriminate].
Qed.

(** Claim C8.  On an object on which [SetRequest] was not called yet, the
    call records the given URI as the request path; on an object whose path is
    set, the call stops at the assertion of [SetRequest]; and a sequence of
    calls on a new object that contains at most one [SetRequest] never stops
    at that assertion. *)
Theorem SetRequest_at_most_once :
  (forall (cs : list call) (h : t) (method uri ver : option string),
      times is_SetRequest cs = 0%nat -> run init cs = Ok h ->
      SetRequest h method uri ver = Ok (with_path h uri) /\
      path_ (with_path h uri) = uri) /\
  (forall (h : t) (p : string) (method uri ver : option string),
      path_ h = Some p ->
      SetRequest h method uri ver = AssertFail in_SetRequest) /\
  (forall cs : list call,
      (times is_SetRequest cs <= 1)%nat ->
      run init cs <> AssertFail in_SetRequest).
Proof.
  split; [| split].
  - intros cs h m u v Hn Hr.
    apply run_keeps_path in Hr; [| exact Hn]. simpl in Hr.
    unfold SetRequest. rewrite Hr. simpl. split; reflexivity.
  - intros h p m u v Hp. unfold SetRequest. rewrite Hp. reflexivity.
  - intros cs Hn. apply run_SetRequest_site. left. split; [reflexivity | exact Hn].
Qed.

(** Claim C9.  [SetField] stops at its assertion for every field name that
    matches none of "Host", "LETV-TV-MAC", "LETV-ZIP" and "Connection"
    without regard to case, and for "LETV-TV-MAC" once the MAC is set; a
    sequence of calls on a new object that names only those four fields,
    and "LETV-TV-MAC" at most once, never stops at that assertion. *)
Theorem SetField_assertion :
  (forall (h : t) (f : string) (v : option string),
      known_field f = false -> SetField h f v = AssertFail in_SetField) /\
  (forall (h : t) (f : string) (v : option string) (m : string),
      LibC.strcasecmp f "LETV-TV-MAC" = 0 -> mac_ h = Some m ->
      SetField h f v = AssertFail in_SetField) /\
  (forall cs : list call,
      forallb field_known cs = true -> (times sets_mac cs <= 1)%nat ->
      run init cs <> AssertFail in_SetField).
Proof.
  split; [| split].
  - intros h f v Hk. unfold known_field in Hk.
    apply orb_false_elim in Hk as [Hk H4].
    apply orb_false_elim in Hk as [Hk H3].
    apply orb_false_elim in Hk as [H1 H2].
    unfold SetField. rewrite H1, H2, H3, H4. reflexivity.
  - intros h f v m Hf Hm. unfold SetField.
    repeat other_name. rewrite Hf, Hm. reflexivity.
  - intros cs Hk Hn. apply run_SetField_site; [exact Hk |].
    left. split; [reflexivity | exact Hn].
Qed.

End PostHeaderContract.

(** ** PostHeader: what [Generate] returns *)

Module GenerateFacts.
Import PostHeader PostHeaderFacts.

Lemma pattern_len_pos (p hst m : string) (c k : bool) :
  0 < Str.len (pattern p hst m c k).
Proof. unfold pattern, Str.len. rewrite str_length_app. simpl String.length. lia. Qed.

Lemma rewrite_tail_twice (buf : string) (off : Z) (n m : N) :
  rewrite_tail (rewrite_tail buf off n) off m = rewrite_tail buf off m.
Proof.
  unfold rewrite_tail. destruct (off =? sizeof_buffer); [reflexivity |].
  apply store_at_twice.
Qed.

Lemma take_rewrite_tail (buf : string) (off : Z) (n : N) :
  Str.take (Z.to_nat off) (rewrite_tail buf off n) = Str.take (Z.to_nat off) buf.
Proof.
  unfold rewrite_tail. destruct (off =? sizeof_buffer); [reflexivity |].
  apply take_store_at.
Qed.

(** The second [snprintf], for an offset inside the array. *)
Lemma second_snprintf (buf : string) (off : Z) (n : N) :
  0 <= off <= sizeof_buffer ->
  match fst (LibC.snprintf ((sizeof_buffer - off) mod 2 ^ 64) (length_tail n)) with
  | Some s => LibC.store_at buf (Z.to_nat off) s
  | None => buf
  end = rewrite_tail buf off n.
Proof.
  intros Hb. unfold rewrite_tail, LibC.snprintf, sizeof_buffer in *.
  rewrite Z.mod_small by (change (2 ^ 64) with 18446744073709551616; lia).
  cbv beta iota delta [fst].
  destruct (Z.eqb_spec off 2048) as [E | E].
  - replace (2048 - off =? 0) with true by (symmetry; lia). reflexivity.
  - replace (2048 - off =? 0) with false by (symmetry; lia). reflexivity.
Qed.

Lemma inside_array (off : Z) :
  0 <= off <= sizeof_buffer -> (off <? 0) || (sizeof_buffer <? off) = false.
Proof. intros Hb. apply orb_false_intro; lia. Qed.

(** The statements of [Generate] after the prefix is in place. *)
Lemma Generate_tail (h hp : t) (n : N) :
  fill_prefix h = Ok hp ->
  0 <= content_length_offset_ hp <= sizeof_buffer ->
  Generate h n =
  Ok (with_buffer hp (rewrite_tail (buffer_ hp) (content_length_offset_ hp) n),
      rewrite_tail (buffer_ hp) (content_length_offset_ hp) n,
      content_length_offset_ hp + Str.len (length_tail n)).
Proof.
  intros F Hb. unfold Generate. rewrite F.
  cbv beta iota delta [bind].
  rewrite (inside_array _ Hb), (second_snprintf _ _ _ Hb). reflexivity.
Qed.

(** [Generate] on a memoized prefix. *)
Lemma Generate_memo (h : t) (n : N) :
  0 < content_length_offset_ h <= sizeof_buffer ->
  Generate h n =
  Ok (with_buffer h (rewrite_tail (buffer_ h) (content_length_offset_ h) n),
      rewrite_tail (buffer_ h) (content_length_offset_ h) n,
      content_length_offset_ h + Str.len (length_tail n)).
Proof.
  intros Hb. apply Generate_tail; [| lia].
  unfold fill_prefix.
  replace (content_length_offset_ h =? 0) with false by (symmetry; lia).
  reflexivity.
Qed.

Lemma fill_prefix_fresh (h : t) (p m : string) :
  content_length_offset_ h = 0 -> path_ h = Some p -> mac_ h = Some m ->
  let text := pattern p (host_ h) m (compressed_ h) (persistent_ h) in
  fill_prefix h =
  Ok (with_offset (with_buffer h (Str.take 2047 text)) (Str.len text)).
Proof.
  intros H0 Hp Hm text. unfold fill_prefix. rewrite H0, Hp, Hm. reflexivity.
Qed.

(** A header that is cut at [sizeof(buffer_) - 1] characters. *)
Lemma rewrite_tail_fresh (text : string) (n : N) :
  Str.len text <= sizeof_buffer ->
  rewrite_tail (Str.take 2047 text) (Str.len text) n =
  Str.take 2047 (text ++ length_tail n).
Proof.
  unfold rewrite_tail, sizeof_buffer, Str.len. intros Hl.
  destruct (Z.eqb_spec (Z.of_nat (String.length text)) 2048) as [E | E].
  - rewrite take_app_le by lia. reflexivity.
  - rewrite (take_all 2047 text) by lia.
    unfold LibC.store_at. rewrite Nat2Z.id, Nat.leb_refl.
    rewrite (take_all _ text) by lia.
    rewrite take_app_ge by lia. do 2 f_equal. lia.
Qed.

(** [Generate] with no memoized prefix: the header is cut at
    [sizeof(buffer_) - 1] characters, and the count stored through
    [head_size] is that of the header had it not been cut. *)
Lemma Generate_fresh (h : t) (p m : string) (n : N) :
  content_length_offset_ h = 0 -> path_ h = Some p -> mac_ h = Some m ->
  let text := pattern p (host_ h) m (compressed_ h) (persistent_ h) in
  let out := Str.take 2047 (text ++ length_tail n) in
  Str.len text <= sizeof_buffer ->
  Generate h n =
  Ok (mk (mac_ h) (path_ h) (compressed_ h) (persistent_ h) (host_ h) out
         (Str.len text),
      out, Str.len text + Str.len (length_tail n)).
Proof.
  intros H0 Hp Hm text out Hl.
  assert (Hpos := pattern_len_pos p (host_ h) m (compressed_ h) (persistent_ h)).
  fold text in Hpos.
  rewrite (Generate_tail h _ n (fill_prefix_fresh h p m H0 Hp Hm)).
  - fold text.
    change (content_length_offset_ (with_offset _ (Str.len text)))
      with (Str.len text).
    change (buffer_ (with_offset (with_buffer h (Str.take 2047 text)) (Str.len text)))
      with (Str.take 2047 text).
    rewrite rewrite_tail_fresh by exact Hl. reflexivity.
  - fold text. simpl content_length_offset_. lia.
Qed.

(** What a returning [Generate] did. *)
Lemma Generate_Ok_inv (h h1 : t) (n : N) (out : string) (hs : Z) :
  Generate h n = Ok (h1, out, hs) ->
  exists hp,
    fill_prefix h = Ok hp /\
    0 < content_length_offset_ hp <= sizeof_buffer /\
    h1 = with_buffer hp out /\
    out = rewrite_tail (buffer_ hp) (content_length_offset_ hp) n /\
    hs = content_length_offset_ hp + Str.len (length_tail n).
Proof.
  intros G. destruct (Generate_shape _ _ _ _ _ G) as (hp & F & E1 & Hb).
  assert (Hnz : content_length_offset_ hp <> 0).
  { destruct (fill_prefix_cases h hp F) as [[E ->] | (p & m & _ & _ & _ & ->)];
      [exact E |].
    change (Str.len (pattern p (host_ h) m (compressed_ h) (persistent_ h)) <> 0).
    pose proof (pattern_len_pos p (host_ h) m (compressed_ h) (persistent_ h)).
    lia. }
  rewrite (Generate_tail h hp n F Hb) in G. injection G as G1 G2 G3.
  exists hp. split; [exact F |]. split; [lia |].
  split; [exact E1 |]. split; [symmetry; exact G2 | symmetry; exact G3].
Qed.

(** [Generate] returns exactly on the calls that stay inside the array. *)
Lemma Generate_returns (h : t) (n : N) :
  in_bounds h = true -> exists r, Generate h n = Ok r.
Proof.
  unfold in_bounds. intros Hb.
  destruct (Z.eqb_spec (content_length_offset_ h) 0) as [E | E].
  - destruct (path_ h) as [p|] eqn:P, (mac_ h) as [m|] eqn:M; try discriminate.
    eexists. apply (Generate_fresh h p m n E P M). lia.
  - eexists. apply Generate_memo. lia.
Qed.

Lemma Generate_returns_only_in_bounds (h : t) (n : N) (r : t * string * Z) :
  Generate h n = Ok r -> in_bounds h = true.
Proof.
  destruct r as [[h1 out] hs]. intros G.
  apply Generate_Ok_inv in G as (hp & F & Hb & _).
  unfold in_bounds.
  destruct (fill_prefix_cases h hp F) as [[E ->] | (p & m & E & Hp & Hm & ->)].
  - replace (content_length_offset_ h =? 0) with false by (symmetry; lia).
    apply andb_true_intro. split; lia.
  - rewrite E, Hp, Hm. simpl Z.eqb. cbv iota.
    change (content_length_offset_ (with_offset _ ?x)) with x in Hb. lia.
Qed.

(** After a returning [Generate], a further [Generate] does what it would
    have done in place of the first. *)
Lemma Generate_again (h h1 : t) (n m : N) (out : string) (hs : Z) :
  Generate h n = Ok (h1, out, hs) ->
  exists hp,
    fill_prefix h = Ok hp /\
    content_length_offset_ h1 = content_length_offset_ hp /\
    0 < content_length_offset_ hp <= sizeof_buffer /\
    Generate h1 m =
    Ok (with_buffer hp (rewrite_tail (buffer_ hp) (content_length_offset_ hp) m),
        rewrite_tail (buffer_ hp) (content_length_offset_ hp) m,
        content_length_offset_ hp + Str.len (length_tail m)).
Proof.
  intros G. apply Generate_Ok_inv in G as (hp & F & Hb & -> & Ho & ->).
  exists hp. split; [exact F |]. split; [reflexivity |]. split; [exact Hb |].
  rewrite Generate_memo by exact Hb.
  simpl buffer_. simpl content_length_offset_.
  rewrite Ho, rewrite_tail_twice. reflexivity.
Qed.

End GenerateFacts.

(** ** PostHeader: the memoized prefix *)

Module PostHeaderMemo.
Import PostHeader PostHeaderFacts GenerateFacts.

(** Claim C3.  On every call of [Generate] that stays inside [buffer_], a
    second call with the same body size returns the same bytes and the same
    head size and leaves the object as it is; a call with another body size
    keeps the memoized offset and the first [content_length_offset_] bytes of
    the output. *)
Theorem Generate_twice (h : t) (n n' : N) :
  in_bounds h = true ->
  exists (h1 : t) (out out' : string) (hs hs' : Z),
    Generate h n = Ok (h1, out, hs) /\
    Generate h1 n = Ok (h1, out, hs) /\
    Generate h1 n' = Ok (with_buffer h1 out', out', hs') /\
    content_length_offset_ (with_buffer h1 out') = content_length_offset_ h1 /\
    Str.take (Z.to_nat (content_length_offset_ h1)) out' =
    Str.take (Z.to_nat (content_length_offset_ h1)) out.
Proof.
  intros Hb. destruct (Generate_returns h n Hb) as [[[h1 out] hs] G].
  pose proof (Generate_Ok_inv _ _ _ _ _ G) as (hp & F & Hoff & E1 & Eo & Ehs).
  pose proof (Generate_again _ _ n n _ _ G) as (hp1 & F1 & _ & _ & G1).
  pose proof (Generate_again _ _ n n' _ _ G) as (hp2 & F2 & _ & _ & G2).
  rewrite F in F1, F2. inversion F1; inversion F2; subst hp1 hp2.
  exists h1, out, (rewrite_tail (buffer_ hp) (content_length_offset_ hp) n'),
    hs, (content_length_offset_ hp + Str.len (length_tail n')).
  split; [exact G |]. split; [| split; [| split]].
  - rewrite G1. rewrite <- Eo, <- Ehs, <- E1. reflexivity.
  - rewrite G2. rewrite E1. reflexivity.
  - reflexivity.
  - rewrite E1. simpl content_length_offset_.
    rewrite Eo, !take_rewrite_tail. reflexivity.
Qed.

Lemma flags_eqb_eq (a b : bool * bool) : flags_eqb a b = true <-> a = b.
Proof.
  destruct a as [[|] [|]], b as [[|] [|]]; unfold flags_eqb; simpl; split;
    intros H; try reflexivity; discriminate H.
Qed.

(** What [SetField] does on the two fields that carry a flag: nothing when
    the flags keep their values, and otherwise it sets them and forgets the
    memoized offset. *)
Lemma SetField_flag (h : t) (f : string) (v : option string) :
  LibC.strcasecmp f "LETV-ZIP" = 0 \/
  (LibC.strcasecmp f "Connection" = 0 /\ v <> None) ->
  SetField h f v =
  Ok (if flags_eqb (flags h) (flags_after h f v) then h
      else with_flags (with_offset h 0) (flags_after h f v)).
Proof.
  unfold flags, flags_after, flags_eqb, with_flags. intros [Hz | [Hc Hv]].
  - unfold SetField. repeat other_name.
    rewrite Hz. simpl andb. cbv iota. simpl (0 =? 0). cbv iota zeta.
    simpl fst; simpl snd. rewrite Bool.eqb_reflx, andb_true_r.
    destruct (Bool.eqb (compressed_ h) (negb (is_null v))); reflexivity.
  - destruct v as [s|]; [| congruence]. unfold SetField. repeat other_name.
    rewrite Hc. simpl andb. cbv iota. simpl (0 =? 0). cbv iota zeta.
    simpl fst; simpl snd. rewrite Bool.eqb_reflx. simpl andb.
    destruct (Bool.eqb (persistent_ h) (negb (LibC.strcasecmp s "close" =? 0)));
      reflexivity.
Qed.

(** Claim C6.  [SetField] on "LETV-ZIP" sets the compression flag to
    whether the value is non-null, and on "Connection" sets the persistent
    flag to whether the value differs from "close"; when the flag changes,
    [content_length_offset_] becomes 0 and nothing else changes, so that the
    next [Generate] fills [buffer_] anew from the fields as they are; when
    the flag keeps its value, the object, and with it the memoized prefix,
    is left as it is. *)
Theorem flag_change_resets_prefix (h : t) (f : string) (v : option string) :
  LibC.strcasecmp f "LETV-ZIP" = 0 \/
  (LibC.strcasecmp f "Connection" = 0 /\ v <> None) ->
  exists h' : t,
    SetField h f v = Ok h' /\
    flags h' = flags_after h f v /\
    (flags h' = flags h -> h' = h) /\
    (flags h' <> flags h ->
     content_length_offset_ h' = 0 /\
     h' = with_persistent (with_compressed (with_offset h 0) (compressed_ h'))
            (persistent_ h') /\
     forall (p m : string) (n : N),
       path_ h' = Some p -> mac_ h' = Some m ->
       let text := pattern p (host_ h') m (compressed_ h') (persistent_ h') in
       Str.len text <= sizeof_buffer ->
       exists h'' : t,
         Generate h' n =
         Ok (h'', Str.take 2047 (text ++ length_tail n),
             Str.len text + Str.len (length_tail n)) /\
         content_length_offset_ h'' = Str.len text).
Proof.
  intros Hf. rewrite (SetField_flag h f v Hf).
  destruct (flags_eqb (flags h) (flags_after h f v)) eqn:E.
  - apply flags_eqb_eq in E. exists h.
    split; [reflexivity |]. split; [exact E |].
    split; [reflexivity |]. intros Hne. now elim Hne.
  - exists (with_flags (with_offset h 0) (flags_after h f v)).
    split; [reflexivity |]. split; [now destruct (flags_after h f v) |].
    split.
    + intros Heq. exfalso.
      assert (flags_eqb (flags h) (flags_after h f v) = true); [| congruence].
      apply flags_eqb_eq. rewrite <- Heq. now destruct (flags_after h f v).
    + intros _. split; [reflexivity |]. split; [reflexivity |].
      intros p m n Hp Hm text Hl.
      eexists. split; [apply (Generate_fresh _ p m n); auto |]. reflexivity.
Qed.

End PostHeaderMemo.

(** ** PostHeader: a host set after the prefix is memoized *)

Module PostHeaderHost.
Import PostHeader PostHeaderFacts GenerateFacts.

Lemma SetField_Host (h : t) (f v : string) :
  LibC.strcasecmp f "Host" = 0 ->
  SetField h f (Some v) = Ok (with_host h (Str.take 63 v)).
Proof. intros Hf. unfold SetField. rewrite Hf. reflexivity. Qed.

Lemma step_same_memo (h1 h2 : t) (c : call) :
  0 < content_length_offset_ h1 <= sizeof_buffer ->
  same_memo h1 h2 -> host_or_generate c = true ->
  exists h3, step h2 c = Ok h3 /\ same_memo h1 h3.
Proof.
  intros Hb [Ho Hr] Hc.
  destruct c as [m u v | f [v|] | n]; simpl in Hc; try discriminate.
  - apply Z.eqb_eq in Hc. simpl step. rewrite SetField_Host by exact Hc.
    eexists; split; [reflexivity |]. split; [exact Ho | exact Hr].
  - simpl step. rewrite Generate_memo by (rewrite Ho; exact Hb).
    eexists; split; [reflexivity |]. cbv beta iota delta [fst].
    split; [exact Ho |]. intros m. simpl buffer_.
    rewrite Ho, rewrite_tail_twice. apply Hr.
Qed.

Lemma run_same_memo (cs : list call) (h1 h2 : t) :
  0 < content_length_offset_ h1 <= sizeof_buffer ->
  same_memo h1 h2 -> forallb host_or_generate cs = true ->
  exists h3, run h2 cs = Ok h3 /\ same_memo h1 h3.
Proof.
  intros Hb. revert h2. induction cs as [|c cs IH]; intros h2 Hs Hcs.
  - exists h2. split; [reflexivity | exact Hs].
  - simpl in Hcs. apply andb_prop in Hcs as [Hc Hcs].
    destruct (step_same_memo h1 h2 c Hb Hs Hc) as (h3 & St & Hs3).
    rewrite run_cons, St. cbv beta iota delta [bind]. now apply IH.
Qed.

Lemma only_Generate (cs : list call) :
  forallb is_Generate cs = true -> forallb host_or_generate cs = true.
Proof.
  induction cs as [|c cs IH]; simpl; [reflexivity |].
  intros H. apply andb_prop in H as [Hc Hcs].
  rewrite (IH Hcs), andb_true_r.
  destruct c; simpl in *; try discriminate; reflexivity.
Qed.

(** Claim C10.  Once a call of [Generate] has returned, setting "Host"
    stores the first 63 characters of the new value in [host_] and leaves
    [content_length_offset_] and [buffer_] as they are; then, after any
    further calls that set "Host" or call [Generate], [Generate] returns the
    bytes and the head size it would have returned had the host never been
    set again, and these start with the first [content_length_offset_] bytes
    of the earlier output; after a call that changes the compression or the
    persistent flag, the header is built again, with the host stored last. *)
Theorem host_after_Generate_is_not_emitted
    (h h1 : t) (n : N) (out : string) (hs : Z) (f v : string) (cs : list call) :
  Generate h n = Ok (h1, out, hs) ->
  LibC.strcasecmp f "Host" = 0 ->
  forallb host_or_generate cs = true ->
  exists h2 h3 : t,
    SetField h1 f (Some v) = Ok h2 /\
    host_ h2 = Str.take 63 v /\
    content_length_offset_ h2 = content_length_offset_ h1 /\
    content_length_offset_ h1 <> 0 /\
    buffer_ h2 = buffer_ h1 /\
    run h2 cs = Ok h3 /\
    content_length_offset_ h3 = content_length_offset_ h1 /\
    forall m : N, exists (out' : string) (hs' : Z),
      Generate h3 m = Ok (with_buffer h3 out', out', hs') /\
      Generate h1 m = Ok (with_buffer h1 out', out', hs') /\
      Str.take (Z.to_nat (content_length_offset_ h1)) out' =
      Str.take (Z.to_nat (content_length_offset_ h1)) out /\
      forall (f' : string) (v' : option string) (h4 : t) (p mac : string),
        LibC.strcasecmp f' "LETV-ZIP" = 0 \/
        (LibC.strcasecmp f' "Connection" = 0 /\ v' <> None) ->
        SetField h3 f' v' = Ok h4 ->
        flags h4 <> flags h3 ->
        path_ h4 = Some p -> mac_ h4 = Some mac ->
        let text := pattern p (host_ h3) mac (compressed_ h4) (persistent_ h4) in
        Str.len text <= sizeof_buffer ->
        exists h5 : t,
          Generate h4 m =
          Ok (h5, Str.take 2047 (text ++ length_tail m),
              Str.len text + Str.len (length_tail m)).
Proof.
  intros G Hf Hcs.
  pose proof (Generate_Ok_inv _ _ _ _ _ G) as (hp & F & Hoff & E1 & Eo & Ehs).
  assert (Hb : 0 < content_length_offset_ h1 <= sizeof_buffer)
    by (rewrite E1; exact Hoff).
  assert (S0 : same_memo h1 (with_host h1 (Str.take 63 v)))
    by (split; [reflexivity | intros m; reflexivity]).
  destruct (run_same_memo cs h1 _ Hb S0 Hcs) as (h3 & R & [Ho Hr]).
  exists (with_host h1 (Str.take 63 v)), h3.
  split; [now apply SetField_Host |].
  split; [reflexivity |]. split; [reflexivity |]. split; [lia |].
  split; [reflexivity |]. split; [exact R |]. split; [exact Ho |].
  intros m.
  exists (rewrite_tail (buffer_ h1) (content_length_offset_ h1) m),
    (content_length_offset_ h1 + Str.len (length_tail m)).
  split; [| split; [| split]].
  - rewrite Generate_memo by (rewrite Ho; exact Hb). rewrite Ho, Hr. reflexivity.
  - now rewrite Generate_memo by exact Hb.
  - rewrite take_rewrite_tail. rewrite E1. simpl. reflexivity.
  - intros f' v' h4 p mac Hf' S4 Hfl Hp Hm text Hl.
    rewrite (PostHeaderMemo.SetField_flag h3 f' v' Hf') in S4.
    destruct (flags_eqb (flags h3) (flags_after h3 f' v'));
      injection S4 as <-; [now elim Hfl |].
    eexists.
    apply (Generate_fresh (with_flags (with_offset h3 0) (flags_after h3 f' v'))
             p mac m); auto.
Qed.

End PostHeaderHost.

(** ** PostHeader: the header on the wire, and the bounds of the arrays *)

Module PostHeaderWire.
Import PostHeader PostHeaderFacts GenerateFacts Scenario.

(** The header of the design document is the expanded pattern followed by
    the text of the second [snprintf]. *)
Lemma request_head_pattern (p hst m : string) (c k : bool) (n : N) :
  Wire.request_head p hst m c k n = pattern p hst m c k ++ length_tail n.
Proof.
  unfold Wire.request_head, pattern, length_tail, program, version.
  destruct c, k; rewrite !str_app_assoc; reflexivity.
Qed.

Lemma neq_by_eqb (a b : string) : String.eqb a b = false -> a <> b.
Proof. apply String.eqb_neq. Qed.

(** Claim C2, as stated, fails: with a host of 70 characters the header
    carries only its first 63; with the host set again after a [Generate]
    the header still carries the former host; and with a header of 2051
    characters the buffer holds the first 2047 only, while the head size
    reported is 2051. *)
Lemma Generate_wire_format_fails :
  (exists (out : string) (hs : Z),
      emitted (h <- run init [request "/up"; CSetField "Host" (Some long_host);
                              CSetField "LETV-TV-MAC" (Some mac)] ;;
               Generate h 10) = Some (out, hs) /\
      out <> Wire.request_head "/up" long_host mac false true 10 /\
      out = Wire.request_head "/up" (Str.fill "a" 63) mac false true 10) /\
  (exists (out : string) (hs : Z),
      emitted (h <- run init [request "/up"; CSetField "Host" (Some "a.example");
                              CSetField "LETV-TV-MAC" (Some mac); CGenerate 10;
                              CSetField "Host" (Some "b.example")] ;;
               Generate h 10) = Some (out, hs) /\
      out <> Wire.request_head "/up" "b.example" mac false true 10 /\
      out = Wire.request_head "/up" "a.example" mac false true 10) /\
  (exists (out : string) (hs : Z),
      emitted (h <- run init [request long_path; CSetField "Host" (Some "example.org");
                              CSetField "LETV-TV-MAC" (Some mac)] ;;
               Generate h 10) = Some (out, hs) /\
      out <> Wire.request_head long_path "example.org" mac false true 10 /\
      Str.len (Wire.request_head long_path "example.org" mac false true 10) = 2051 /\
      Str.len out = 2047 /\ hs = 2051).
Proof.
  split; [| split].
  - eexists; eexists. split; [vm_compute; reflexivity |].
    split; [apply neq_by_eqb |]; vm_compute; reflexivity.
  - eexists; eexists. split; [vm_compute; reflexivity |].
    split; [apply neq_by_eqb |]; vm_compute; reflexivity.
  - eexists; eexists. split; [vm_compute; reflexivity |].
    split; [apply neq_by_eqb; vm_compute; reflexivity |].
    repeat split; vm_compute; reflexivity.
Qed.

(** Claim C2, amended.  With no memoized prefix, the path and the MAC set,
    and a header shorter than [buffer_], [Generate] returns exactly the
    header of the design document, in which the host is the stored [host_],
    and reports its length as the head size; the offset it memoizes is where
    the length digits start; and after any further calls of [Generate]
    alone, [Generate] returns the header for the body size it is given,
    when that header is shorter than [buffer_].  The stored [host_] is the
    first 63 characters of the value given for "Host". *)
Theorem Generate_wire_format (h : t) (p m : string) (n : N) :
  content_length_offset_ h = 0 -> path_ h = Some p -> mac_ h = Some m ->
  let head := Wire.request_head p (host_ h) m (compressed_ h) (persistent_ h) in
  Str.len (head n) < sizeof_buffer ->
  (exists h' : t,
      Generate h n = Ok (h', head n, Str.len (head n)) /\
      content_length_offset_ h' + Str.len (length_tail n) = Str.len (head n) /\
      buffer_ h' = head n /\
      forall (cs : list call) (n' : N),
        forallb is_Generate cs = true ->
        Str.len (head n') < sizeof_buffer ->
        exists h'' : t,
          run h' cs = Ok h'' /\
          Generate h'' n' =
          Ok (with_buffer h'' (head n'), head n', Str.len (head n'))) /\
  (forall (h0 : t) (f v : string),
      LibC.strcasecmp f "Host" = 0 ->
      exists h1 : t, SetField h0 f (Some v) = Ok h1 /\ host_ h1 = Str.take 63 v).
Proof.
  intros H0 Hp Hm head Hl. split.
  - set (text := pattern p (host_ h) m (compressed_ h) (persistent_ h)).
    assert (Eh : forall k, head k = text ++ length_tail k)
      by (intros k; apply request_head_pattern).
    assert (Fit : forall k, Str.len (head k) < sizeof_buffer ->
              Str.len text <= sizeof_buffer /\
              Str.take 2047 (text ++ length_tail k) = head k).
    { intros k Hk. rewrite Eh in *. rewrite len_app in Hk.
      pose proof (len_nonneg (length_tail k)) as Ht. split; [lia |].
      apply take_all. unfold sizeof_buffer, Str.len in *.
      rewrite str_length_app. lia. }
    destruct (Fit n Hl) as [Ht En].
    pose proof (pattern_len_pos p (host_ h) m (compressed_ h) (persistent_ h))
      as Hpos. fold text in Hpos.
    pose proof (Generate_fresh h p m n H0 Hp Hm Ht) as G.
    fold text in G. rewrite En in G. rewrite <- len_app, <- Eh in G.
    eexists. split; [exact G |].
    split; [simpl content_length_offset_; rewrite Eh, len_app; reflexivity |].
    split; [reflexivity |].
    intros cs n' Hcs Hl'. destruct (Fit n' Hl') as [_ En'].
    match type of G with Generate _ _ = Ok (?x, _, _) => set (h' := x) in * end.
    assert (Hb : 0 < content_length_offset_ h' <= sizeof_buffer)
      by (unfold h'; simpl content_length_offset_; lia).
    assert (S0 : same_memo h' h') by (split; [reflexivity | intros k; reflexivity]).
    destruct (PostHeaderHost.run_same_memo cs h' h' Hb S0
                (PostHeaderHost.only_Generate cs Hcs)) as (h'' & R & [Ho Hr]).
    exists h''. split; [exact R |].
    rewrite Generate_memo by (rewrite Ho; exact Hb).
    rewrite Ho, Hr.
    assert (Eb : rewrite_tail (buffer_ h') (content_length_offset_ h') n' = head n').
    { unfold h'. simpl buffer_. simpl content_length_offset_.
      rewrite <- En at 1. rewrite <- (rewrite_tail_fresh text n Ht).
      rewrite rewrite_tail_twice, (rewrite_tail_fresh text n' Ht). exact En'. }
    rewrite Eb. unfold h'. simpl content_length_offset_.
    rewrite Eh, len_app. reflexivity.
  - intros h0 f v Hf. eexists. split; [now apply PostHeaderHost.SetField_Host |].
    reflexivity.
Qed.

(** The destination is read through its first 1023 characters only. *)
Lemma ParseOptions_d_cut (optarg : string) :
  Main.ParseOptions_d (Str.take 1023 optarg) = Main.ParseOptions_d optarg.
Proof. unfold Main.ParseOptions_d. apply take_take. Qed.

Lemma option_loop_d_cut (pre post : list (ascii * string)) (optarg : string) :
  forall o : Options.t,
    Options.option_loop o (pre ++ ("d"%char, Str.take 1023 optarg) :: post)%list =
    Options.option_loop o (pre ++ ("d"%char, optarg) :: post)%list.
Proof.
  induction pre as [|[opt a] pre IH]; intros o.
  - cbn [List.app Options.option_loop].
    change (Options.option_case o "d" (Str.take 1023 optarg))
      with (Returns (Options.mk
                       (Options.enable_verbose o) (Options.short_transaction o)
                       (Main.ParseOptions_d (Str.take 1023 optarg))
                       (Options.buffer_size o) (Options.transfer_rate o)
                       (Options.connect_retry o) (Options.idle_transfer_interval o)
                       (Options.idle_transfer_idle_limit o)
                       (Options.idle_transfer_busy_limit o) (Options.zip_level o))).
    now rewrite ParseOptions_d_cut.
  - cbn [List.app Options.option_loop].
    destruct (Options.option_case o opt a) as [o1|st]; [apply IH | reflexivity].
Qed.

Lemma ParseOptions_cut (pre post : list (ascii * string)) (optarg : string) :
  Options.ParseOptions (pre ++ ("d"%char, Str.take 1023 optarg) :: post)%list =
  Options.ParseOptions (pre ++ ("d"%char, optarg) :: post)%list.
Proof. unfold Options.ParseOptions. now rewrite option_loop_d_cut. Qed.

Lemma main_cut (Run : Type) (pipe : Options.t -> t -> Run)
    (mac_address : exits string) (pre post : list (ascii * string))
    (optarg : string) :
  Startup.main pipe mac_address
    (pre ++ ("d"%char, Str.take 1023 optarg) :: post)%list =
  Startup.main pipe mac_address (pre ++ ("d"%char, optarg) :: post)%list.
Proof. unfold Startup.main. now rewrite ParseOptions_cut. Qed.

(** A single [-d] with an argument that is not empty. *)
Lemma ParseOptions_single_d (optarg : string) :
  optarg <> "" ->
  Options.ParseOptions [("d"%char, optarg)] =
  Returns (Options.mk false false (Str.take 1023 optarg)
                      (1024 * 1024) 12500 3 300 1 3 0).
Proof.
  destruct optarg as [|c rest]; [congruence |]. intros _. reflexivity.
Qed.

(** Claim C7, as stated, fails: with a destination of 3019 characters,
    whose path has 3001, [ParseOptions] does not exit; it returns with the
    first 1023 characters as the destination, which is not the destination
    that was given; and what [ParseOptions] and [main] do, whatever the pipe
    does, is what they do for that destination of 1023 characters, which is
    within the bound. *)
Lemma oversized_values_are_cut :
  Str.len long_destination = 3019 /\
  Options.ParseOptions [("d"%char, long_destination)] =
  Returns (Options.mk false false ("letv://example.org/" ++ Str.fill "p" 1004)
                      (1024 * 1024) 12500 3 300 1 3 0) /\
  "letv://example.org/" ++ Str.fill "p" 1004 <> long_destination /\
  Str.len ("letv://example.org/" ++ Str.fill "p" 1004) = 1023 /\
  Options.ParseOptions [("d"%char, long_destination)] =
  Options.ParseOptions [("d"%char, "letv://example.org/" ++ Str.fill "p" 1004)] /\
  (forall (Run : Type) (pipe : Options.t -> t -> Run) (mac_address : exits string),
      Startup.main pipe mac_address [("d"%char, long_destination)] =
      Startup.main pipe mac_address
        [("d"%char, "letv://example.org/" ++ Str.fill "p" 1004)]).
Proof.
  assert (C : "letv://example.org/" ++ Str.fill "p" 1004 =
              Str.take 1023 long_destination) by (vm_compute; reflexivity).
  split; [vm_compute; reflexivity |].
  split; [vm_compute; reflexivity |].
  split; [apply neq_by_eqb; vm_compute; reflexivity |].
  split; [vm_compute; reflexivity |].
  split.
  - rewrite C. symmetry. apply (ParseOptions_cut [] [] long_destination).
  - intros Run pipe mac_address. rewrite C. symmetry.
    apply (main_cut Run pipe mac_address [] [] long_destination).
Qed.

(** Claim C7, amended.  No call checks a size, and an oversized value is
    cut, not refused.  [ParseOptions] does not exit on account of the
    length of the destination: with a single [-d] whose argument is not
    empty it returns, with the first 1023 characters of the argument as
    the destination and every other variable at its initial value; and in
    every list of options, to replace the argument of a [-d] by its first
    1023 characters changes nothing of what [ParseOptions] does, nor of
    what [main] does, whatever the pipe does with the variables and the
    header.  [SetField] keeps the first 63 characters of the host and
    returns; and [Generate], for a pattern that expands to at most
    [sizeof(buffer_)] characters, keeps the first 2047 characters of the
    header and returns. *)
Theorem oversized_values_are_not_refused :
  (forall optarg : string,
      optarg <> "" ->
      Options.ParseOptions [("d"%char, optarg)] =
      Returns (Options.mk false false (Str.take 1023 optarg)
                          (1024 * 1024) 12500 3 300 1 3 0)) /\
  (forall (pre post : list (ascii * string)) (optarg : string),
      Options.ParseOptions (pre ++ ("d"%char, optarg) :: post)%list =
      Options.ParseOptions (pre ++ ("d"%char, Str.take 1023 optarg) :: post)%list) /\
  (forall (Run : Type) (pipe : Options.t -> t -> Run) (mac_address : exits string)
          (pre post : list (ascii * string)) (optarg : string),
      Startup.main pipe mac_address (pre ++ ("d"%char, optarg) :: post)%list =
      Startup.main pipe mac_address
        (pre ++ ("d"%char, Str.take 1023 optarg) :: post)%list) /\
  (forall (h : t) (f v : string),
      LibC.strcasecmp f "Host" = 0 ->
      SetField h f (Some v) = Ok (with_host h (Str.take 63 v))) /\
  (forall (h : t) (p m : string) (n : N),
      content_length_offset_ h = 0 -> path_ h = Some p -> mac_ h = Some m ->
      Str.len (pattern p (host_ h) m (compressed_ h) (persistent_ h))
        <= sizeof_buffer ->
      exists (h' : t) (hs : Z),
        Generate h n =
        Ok (h', Str.take 2047
                  (Wire.request_head p (host_ h) m (compressed_ h) (persistent_ h) n),
            hs)).
Proof.
  split; [exact ParseOptions_single_d |].
  split; [intros pre post optarg; symmetry; apply ParseOptions_cut |].
  split; [intros Run pipe mac_address pre post optarg; symmetry; apply main_cut |].
  split.
  - intros h f v Hf. now apply PostHeaderHost.SetField_Host.
  - intros h p m n H0 Hp Hm Hl.
    rewrite request_head_pattern.
    rewrite (Generate_fresh h p m n H0 Hp Hm) by exact Hl.
    eexists; eexists; reflexivity.
Qed.

End PostHeaderWire.

(** ** The rate governor *)

Module RateGovernorSpec.
Import RateGovernor.

(** Claim C4.  For a rate, an elapsed time, a count of unsent bytes and a
    capacity, none negative, the allowance is the quotient of rate times
    elapsed microseconds by 1_000_000 rounded down, unless the unsent bytes
    or the capacity are fewer, in which case it is the smaller of those: it
    exceeds none of the three, is one of them, and is the greatest count
    that exceeds none of them. *)
Theorem allowance_floor_clamped (R dt remaining capacity : Z) :
  0 <= R -> 0 <= dt -> 0 <= remaining -> 0 <= capacity ->
  let a := allowance R dt remaining capacity in
  let q := R * dt / 1000000 in
  (1000000 * q <= R * dt < 1000000 * (q + 1)) /\
  0 <= a /\ a <= q /\ a <= remaining /\ a <= capacity /\
  (q <= remaining -> q <= capacity -> a = q) /\
  (a = q \/ a = remaining \/ a = capacity) /\
  (forall k : Z, k <= q -> k <= remaining -> k <= capacity -> k <= a).
Proof.
  intros HR Hdt Hrem Hcap a q. unfold a, allowance. fold q.
  assert (Hq : 1000000 * q <= R * dt < 1000000 * (q + 1)).
  { unfold q.
    pose proof (Z.div_mod (R * dt) 1000000 ltac:(lia)) as E.
    pose proof (Z.mod_pos_bound (R * dt) 1000000 ltac:(lia)) as B.
    lia. }
  assert (Hq0 : 0 <= q) by (unfold q; apply Z.div_pos; nia).
  split; [exact Hq |]. repeat split; try lia.
Qed.

End RateGovernorSpec.

(** ** The transfer window guard *)

Module TransferWindowGuardSpec.
Import TransferWindowGuard.

Lemma idle_in_app (w : list tick) (k : tick) :
  idle_in (w ++ [k]) = idle_in w + (if is_idle k then 1 else 0).
Proof.
  unfold idle_in. rewrite filter_app, List.length_app. simpl.
  destruct (is_idle k); simpl; lia.
Qed.

Lemma busy_in_app (w : list tick) (k : tick) :
  busy_in (w ++ [k]) = busy_in w + (if is_idle k then 0 else 1).
Proof.
  unfold busy_in. rewrite filter_app, List.length_app. simpl.
  destruct (is_idle k); simpl; lia.
Qed.

Lemma windows_within (idle busy : Z) (es : list event) :
  0 <= idle -> 0 <= busy ->
  forall (c : counters) (cur : list tick),
    counted idle busy c cur ->
    Forall (within idle busy) (windows idle busy c cur es).
Proof.
  intros Hi Hb. induction es as [|e es IH]; intros c cur (Ei & Eb & Li & Lb).
  - constructor; [split; assumption | constructor].
  - destruct e as [k |]; simpl.
    + apply IH. unfold counted.
      destruct k; simpl; unfold CheckTransfer; simpl.
      * destruct (idle_transfer_n c <? idle) eqn:E; simpl;
          rewrite ?idle_in_app, ?busy_in_app; simpl; repeat split; lia.
      * destruct (busy_transfer_n c <? busy) eqn:E; simpl;
          rewrite ?idle_in_app, ?busy_in_app; simpl; repeat split; lia.
    + constructor; [split; assumption |].
      apply IH. unfold counted, idle_in, busy_in. simpl. lia.
Qed.

(** Claim C5.  A tick is permitted exactly when it is idle with the idle
    count below the idle limit or busy with the busy count below the busy
    limit; a permitted tick raises its own count by one and a refused one
    changes nothing; the start of a window sets both counts to zero; and,
    for limits that are not negative, no window of a run that starts with
    zero counts holds more idle transfers than the idle limit or more busy
    transfers than the busy limit. *)
Theorem window_guard (idle busy : Z) (es : list event) :
  0 <= idle -> 0 <= busy ->
  (forall (c : counters) (k : tick),
      CheckTransfer idle busy c k = true <->
      (k = Idle /\ idle_transfer_n c < idle) \/
      (k = Busy /\ busy_transfer_n c < busy)) /\
  (forall (c : counters) (k : tick),
      on_event idle busy c (Tick k) =
      if CheckTransfer idle busy c k then (count_transfer c k, Some k)
      else (c, None)) /\
  (forall c : counters, on_event idle busy c WindowStart = (zero, None)) /\
  Forall (fun w => idle_in w <= idle /\ busy_in w <= busy)
         (windows idle busy zero [] es).
Proof.
  intros Hi Hb. split; [| split; [| split]].
  - intros c [|]; unfold CheckTransfer; rewrite Z.ltb_lt; split.
    + intros H; left; split; [reflexivity | exact H].
    + intros [[_ H] | [H _]]; [exact H | discriminate].
    + intros H; right; split; [reflexivity | exact H].
    + intros [[H _] | [_ H]]; [discriminate | exact H].
  - reflexivity.
  - reflexivity.
  - apply (windows_within idle busy es Hi Hb zero []).
    unfold counted, idle_in, busy_in. simpl. lia.
Qed.

End TransferWindowGuardSpec.

(** ** Retrying after a failure *)

Module EngineSpec.
Import Engine.
Local Open Scope list_scope.

Lemma firstn_more {A : Type} (l : list A) (i k : nat) :
  firstn i l ++ firstn k (skipn i l) = firstn (i + k) l.
Proof.
  revert l; induction i as [|i IH]; intros l; simpl.
  - reflexivity.
  - destruct l as [|x l]; simpl.
    + now rewrite firstn_nil.
    + now rewrite IH.
Qed.

Lemma firstn_within {A : Type} (l l' : list A) (i : nat) :
  (i <= List.length l)%nat -> firstn i (l ++ l') = firstn i l.
Proof.
  intros Hi. rewrite firstn_app.
  replace (i - List.length l)%nat with 0%nat by lia.
  simpl. apply app_nil_r.
Qed.

Lemma step_consistent (cap retry : nat) (s : state) (e : io_event) :
  consistent s -> consistent (handle cap retry s e).
Proof.
  intros C. destruct e as [n | | n | |]; simpl.
  - intros F. simpl in F. destruct (C F) as (W & O & L & B). simpl.
    rewrite firstn_within by lia. rewrite List.length_app. repeat split; try lia; auto.
  - destruct (in_flight s) eqn:F; [exact C |].
    destruct (inbuf_ s) as [|x l] eqn:I; [exact C |].
    intros _. simpl. repeat split; lia.
  - destruct (in_flight s) eqn:F; [| exact C].
    intros _. destruct (C F) as (W & O & L & B). simpl.
    rewrite W, firstn_more. repeat split; try lia; auto.
  - destruct (in_flight s) eqn:F; [| exact C].
    intros _. destruct (C F) as (W & O & L & B). simpl.
    repeat split; try lia; auto.
  - destruct (in_flight s && (out_offset_ s =? content_length_ s)%nat) eqn:F;
      [| exact C].
    intros F'. simpl in F'. discriminate.
Qed.

Lemma step_conserved (cap retry : nat) (input : list byte) (s : state) (e : io_event) :
  consistent s -> conserved input s -> conserved input (handle cap retry s e).
Proof.
  unfold conserved. intros C K. destruct e as [n | | n | |]; simpl.
  - rewrite <- List.app_assoc, firstn_skipn. exact K.
  - destruct (in_flight s); [exact K |].
    destruct (inbuf_ s) eqn:I; simpl; rewrite ?I; exact K.
  - destruct (in_flight s); exact K.
  - destruct (in_flight s); exact K.
  - destruct (in_flight s) eqn:F; simpl; [| exact K].
    destruct (Nat.eqb_spec (out_offset_ s) (content_length_ s)) as [E | E];
      [| exact K].
    destruct (C F) as (W & _). simpl.
    rewrite List.concat_app. simpl. rewrite app_nil_r, <- List.app_assoc.
    rewrite W, E.
    rewrite (List.app_assoc (firstn _ _)), firstn_skipn. exact K.
Qed.

Lemma Serve_invariant (cap retry : nat) (input : list byte) (es : list io_event) :
  forall s : state,
    consistent s -> conserved input s ->
    consistent (Serve cap retry s es) /\ conserved input (Serve cap retry s es).
Proof.
  unfold Serve. induction es as [|e es IH]; intros s C K; simpl.
  - split; assumption.
  - apply IH; [now apply step_consistent | now apply step_conserved].
Qed.

Lemma Serve_app (cap retry : nat) (s : state) (es es' : list io_event) :
  Serve cap retry s (es ++ es') = Serve cap retry (Serve cap retry s es) es'.
Proof. unfold Serve. apply fold_left_app. Qed.

(** What is buffered and not in flight goes out in one transaction. *)
Lemma send_buffered (cap retry n : nat) (s : state) :
  in_flight s = false -> (List.length (inbuf_ s) <= n)%nat ->
  let s' := Serve cap retry s [StartTransfer; SendBody n; ResponseComplete] in
  in_flight s' = false /\ inbuf_ s' = [] /\ source s' = source s.
Proof.
  intros F Hn. unfold Serve. simpl. rewrite F.
  destruct (inbuf_ s) as [|x l] eqn:I.
  - simpl. rewrite F. simpl. rewrite F, I. simpl. auto.
  - simpl. simpl in Hn. rewrite !(Nat.min_r n (S (List.length l))) by lia.
    rewrite Nat.eqb_refl. simpl. rewrite skipn_all. auto.
Qed.

Lemma flush_empties (cap retry n : nat) (s : state) :
  consistent s -> (List.length (inbuf_ s) <= n)%nat ->
  let s' := Serve cap retry s (flush n) in
  in_flight s' = false /\ inbuf_ s' = [] /\ source s' = source s.
Proof.
  intros C Hn.
  change (flush n) with
    ([SendBody n; ResponseComplete] ++ [StartTransfer; SendBody n; ResponseComplete]).
  rewrite Serve_app.
  set (s1 := Serve cap retry s [SendBody n; ResponseComplete]).
  assert (H1 : in_flight s1 = false /\ source s1 = source s /\
               (List.length (inbuf_ s1) <= n)%nat).
  { unfold s1, Serve. simpl. destruct (in_flight s) eqn:F.
    - destruct (C F) as (W & O & L & B). simpl.
      replace (out_offset_ s + Nat.min n (content_length_ s - out_offset_ s))%nat
        with (content_length_ s) by lia.
      rewrite Nat.eqb_refl. simpl. rewrite length_skipn. repeat split; lia.
    - rewrite F. simpl. repeat split; [exact F | lia]. }
  destruct H1 as (F1 & S1 & L1).
  destruct (send_buffered cap retry n s1 F1 L1) as (A & B & D).
  repeat split; [exact A | exact B | now rewrite D].
Qed.

Lemma round_reads (cap retry n : nat) (s : state) :
  in_flight s = false -> inbuf_ s = [] -> (cap <= n)%nat ->
  let s' := Serve cap retry s (round cap n) in
  in_flight s' = false /\ inbuf_ s' = [] /\ source s' = skipn cap (source s).
Proof.
  intros F I Hn.
  change (round cap n) with
    ([ReadInput cap] ++ [StartTransfer; SendBody n; ResponseComplete]).
  rewrite Serve_app.
  set (s1 := Serve cap retry s [ReadInput cap]).
  assert (H1 : in_flight s1 = false /\ source s1 = skipn cap (source s) /\
               (List.length (inbuf_ s1) <= n)%nat).
  { unfold s1, Serve. simpl. rewrite I. simpl.
    rewrite Nat.sub_0_r, Nat.min_id. repeat split; [exact F |].
    rewrite length_firstn. lia. }
  destruct H1 as (F1 & S1 & L1).
  destruct (send_buffered cap retry n s1 F1 L1) as (A & B & D).
  repeat split; [exact A | exact B | now rewrite D].
Qed.

Lemma rounds_read (cap retry n k : nat) :
  (0 < cap <= n)%nat ->
  forall s : state,
    in_flight s = false -> inbuf_ s = [] -> (List.length (source s) <= k)%nat ->
    let s' := Serve cap retry s (rounds k cap n) in
    in_flight s' = false /\ inbuf_ s' = [] /\ source s' = [].
Proof.
  intros Hc. induction k as [|k IH]; intros s F I L.
  - simpl. repeat split; try assumption.
    destruct (source s); [reflexivity | simpl in L; lia].
  - change (rounds (S k) cap n) with (round cap n ++ rounds k cap n).
    rewrite Serve_app.
    destruct (round_reads cap retry n s F I (proj2 Hc)) as (A & B & D).
    apply IH; [exact A | exact B |].
    rewrite D, length_skipn. lia.
Qed.

(** From a state the loop can reach, the run [drain] leaves nothing
    unread and nothing buffered. *)
Lemma drain_empties (cap retry : nat) (s : state) :
  (0 < cap)%nat -> consistent s ->
  let s' := Serve cap retry s (drain cap s) in
  inbuf_ s' = [] /\ source s' = [].
Proof.
  intros Hc C. unfold drain. rewrite Serve_app.
  destruct (flush_empties cap retry (List.length (inbuf_ s) + cap) s C)
    as (A & B & D); [lia |].
  destruct (rounds_read cap retry (List.length (inbuf_ s) + cap)
              (List.length (source s)) ltac:(lia) _ A B) as (_ & E & G);
    [rewrite D; lia |].
  split; assumption.
Qed.

(** Claim C1.  In every run of the loop, whatever reads, sends, socket
    errors and responses it meets, the bodies the server has acknowledged,
    followed by the bytes still buffered and the input still unread, are the
    input, byte for byte: once the input is read and the buffer is empty,
    the acknowledged bodies are the input, each byte once and in order.  In
    a transaction, a socket error followed by a send of the whole body and
    its response hands the server the whole body as it was buffered,
    whatever part of it had been sent before the error.  And with a buffer
    of at least one byte, a run on which every send goes through ends with
    the whole input acknowledged. *)
Theorem no_byte_lost_or_duplicated
    (buffer_size_ connect_retry_ : nat) (input : list byte) (es : list io_event) :
  let s := Serve buffer_size_ connect_retry_ (Init input) es in
  List.concat (delivered s) ++ inbuf_ s ++ source s = input /\
  (source s = [] -> inbuf_ s = [] -> List.concat (delivered s) = input) /\
  (in_flight s = true ->
   out_offset_ (Rollback s) = 0%nat /\
   content_length_ (Rollback s) = content_length_backup_ s /\
   content_length_ (Rollback s) = content_length_ s /\
   let s' := Serve buffer_size_ connect_retry_ s
               [SocketError; SendBody (content_length_ s); ResponseComplete] in
   delivered s' = delivered s ++ [firstn (content_length_ s) (inbuf_ s)] /\
   inbuf_ s' = skipn (content_length_ s) (inbuf_ s) /\
   in_flight s' = false) /\
  ((0 < buffer_size_)%nat ->
   let s' := Serve buffer_size_ connect_retry_ s (drain buffer_size_ s) in
   source s' = [] /\ inbuf_ s' = [] /\ List.concat (delivered s') = input).
Proof.
  intros s.
  destruct (Serve_invariant buffer_size_ connect_retry_ input es (Init input))
    as [C K].
  { intros F. discriminate. }
  { reflexivity. }
  fold s in C, K.
  assert (Done : forall s0 : state,
             conserved input s0 -> source s0 = [] -> inbuf_ s0 = [] ->
             List.concat (delivered s0) = input).
  { intros s0 K0 Hs Hi. unfold conserved in K0. rewrite Hs, Hi in K0.
    now rewrite !app_nil_r in K0. }
  split; [exact K |]. split; [now apply Done |]. split.
  - intros F. destruct (C F) as (W & O & L & B).
    split; [reflexivity |]. split; [reflexivity |]. split; [exact B |].
    unfold Serve. simpl. rewrite F. simpl. rewrite B.
    rewrite Nat.sub_0_r, Nat.min_id, Nat.eqb_refl. simpl.
    repeat split.
  - intros Hc.
    destruct (drain_empties buffer_size_ connect_retry_ s Hc C) as [Hi Hs].
    destruct (Serve_invariant buffer_size_ connect_retry_ input
                (drain buffer_size_ s) s C K) as [_ K'].
    split; [exact Hs |]. split; [exact Hi |]. now apply Done.
Qed.

End EngineSpec.

(** ** The properties at concrete inputs *)

Module Witnesses.
Import PostHeader Scenario.

(** An object with the request line and the three fields set. *)
Lemma ready_is_reached :
  run init [request "/up"; CSetField "host" (Some "example.org");
            CSetField "LETV-TV-MAC" (Some mac)] = Ok ready.
Proof. vm_compute. reflexivity. Qed.

Lemma no_byte_lost_or_duplicated_witness :
  Engine.source (Engine.Serve 2 3 (Engine.Init payload) retried_run) = [] /\
  Engine.inbuf_ (Engine.Serve 2 3 (Engine.Init payload) retried_run) = [] /\
  List.concat (Engine.delivered (Engine.Serve 2 3 (Engine.Init payload) retried_run))
  = payload.
Proof.
  split; [reflexivity |]. split; [reflexivity |].
  destruct (EngineSpec.no_byte_lost_or_duplicated 2 3 payload retried_run)
    as (_ & Done & _ & _).
  apply Done; reflexivity.
Defined.

Lemma Generate_wire_format_witness :
  content_length_offset_ ready = 0 /\ path_ ready = Some "/up" /\
  mac_ ready = Some mac /\
  Str.len (Wire.request_head "/up" "example.org" mac false true 10) < sizeof_buffer /\
  exists h' : t,
    Generate ready 10 =
    Ok (h', Wire.request_head "/up" "example.org" mac false true 10,
        Str.len (Wire.request_head "/up" "example.org" mac false true 10)).
Proof.
  split; [reflexivity |]. split; [reflexivity |]. split; [reflexivity |].
  split; [vm_compute; reflexivity |].
  destruct (PostHeaderWire.Generate_wire_format ready "/up" mac 10)
    as [(h' & G & _) _];
    [reflexivity | reflexivity | reflexivity | vm_compute; reflexivity |].
  exists h'. exact G.
Defined.

Lemma Generate_twice_witness :
  in_bounds ready = true /\
  exists (h1 : t) (out out' : string) (hs hs' : Z),
    Generate ready 10 = Ok (h1, out, hs) /\
    Generate h1 10 = Ok (h1, out, hs) /\
    Generate h1 2048 = Ok (with_buffer h1 out', out', hs') /\
    content_length_offset_ (with_buffer h1 out') = content_length_offset_ h1 /\
    Str.take (Z.to_nat (content_length_offset_ h1)) out' =
    Str.take (Z.to_nat (content_length_offset_ h1)) out.
Proof.
  split; [vm_compute; reflexivity |].
  apply (PostHeaderMemo.Generate_twice ready 10 2048). vm_compute. reflexivity.
Defined.

Lemma allowance_floor_clamped_witness :
  0 <= 12500 /\ 0 <= 1500000 /\ 0 <= 100000 /\ 0 <= 1048576 /\
  RateGovernor.allowance 12500 1500000 100000 1048576 = 18750.
Proof.
  split; [lia |]. split; [lia |]. split; [lia |]. split; [lia |].
  apply (RateGovernorSpec.allowance_floor_clamped 12500 1500000 100000 1048576);
    vm_compute; congruence.
Defined.

Lemma window_guard_witness :
  0 <= 1 /\ 0 <= 3 /\
  Forall (fun w => TransferWindowGuard.idle_in w <= 1 /\
                   TransferWindowGuard.busy_in w <= 3)
         (TransferWindowGuard.windows 1 3 TransferWindowGuard.zero [] two_windows).
Proof.
  split; [lia |]. split; [lia |].
  apply (TransferWindowGuardSpec.window_guard 1 3 two_windows); lia.
Defined.

Lemma flag_change_resets_prefix_witness :
  (LibC.strcasecmp "letv-zip" "LETV-ZIP" = 0 \/
   (LibC.strcasecmp "letv-zip" "Connection" = 0 /\ Some "1" <> None)) /\
  exists h' : t,
    SetField memoized "letv-zip" (Some "1") = Ok h' /\
    flags h' = (true, true) /\ content_length_offset_ h' = 0.
Proof.
  split; [left; reflexivity |].
  destruct (PostHeaderMemo.flag_change_resets_prefix memoized "letv-zip" (Some "1"))
    as (h' & S1 & F1 & _ & R1); [left; reflexivity |].
  exists h'. split; [exact S1 |]. split; [exact F1 |].
  apply R1. rewrite F1. vm_compute. discriminate.
Defined.

Lemma oversized_values_are_not_refused_witness :
  Options.ParseOptions [("d"%char, long_destination)] =
  Returns (Options.mk false false (Str.take 1023 long_destination)
                      (1024 * 1024) 12500 3 300 1 3 0) /\
  LibC.strcasecmp "Host" "Host" = 0 /\
  SetField init "Host" (Some long_host) = Ok (with_host init (Str.take 63 long_host)).
Proof.
  destruct PostHeaderWire.oversized_values_are_not_refused
    as (Single & _ & _ & Host & _).
  split; [apply Single; discriminate |].
  split; [reflexivity |].
  apply Host. reflexivity.
Defined.

Lemma SetRequest_at_most_once_witness :
  (times is_SetRequest
     [CSetField "Host" (Some "example.org"); request "/up"; CGenerate 10] <= 1)%nat /\
  run init [CSetField "Host" (Some "example.org"); request "/up"; CGenerate 10]
  <> AssertFail in_SetRequest.
Proof.
  split; [unfold times; simpl; lia |].
  apply (proj2 (proj2 PostHeaderContract.SetRequest_at_most_once)).
  unfold times; simpl; lia.
Defined.

Lemma SetField_assertion_witness :
  forallb field_known
    [CSetField "connection" (Some "close"); CSetField "letv-tv-mac" (Some mac);
     CSetField "LETV-ZIP" None] = true /\
  (times sets_mac
     [CSetField "connection" (Some "close"); CSetField "letv-tv-mac" (Some mac);
      CSetField "LETV-ZIP" None] <= 1)%nat /\
  run init [CSetField "connection" (Some "close"); CSetField "letv-tv-mac" (Some mac);
            CSetField "LETV-ZIP" None] <> AssertFail in_SetField.
Proof.
  split; [reflexivity |]. split; [unfold times; simpl; lia |].
  apply (proj2 (proj2 PostHeaderContract.SetField_assertion));
    [reflexivity | unfold times; simpl; lia].
Defined.

Lemma host_after_Generate_is_not_emitted_witness :
  Generate ready 10 = Ok (memoized, buffer_ memoized, 124) /\
  LibC.strcasecmp "HOST" "Host" = 0 /\
  forallb host_or_generate [CGenerate 7; CSetField "Host" (Some "c.example")] = true /\
  exists h2 h3 : t,
    SetField memoized "HOST" (Some "b.example") = Ok h2 /\
    host_ h2 = "b.example" /\
    run h2 [CGenerate 7; CSetField "Host" (Some "c.example")] = Ok h3 /\
    exists (out' : string) (hs' : Z),
      Generate h3 10 = Ok (with_buffer h3 out', out', hs') /\
      Generate memoized 10 = Ok (with_buffer memoized out', out', hs').
Proof.
  split; [vm_compute; reflexivity |]. split; [reflexivity |].
  split; [reflexivity |].
  destruct (PostHeaderHost.host_after_Generate_is_not_emitted
              ready memoized 10 (buffer_ memoized) 124 "HOST" "b.example"
              [CGenerate 7; CSetField "Host" (Some "c.example")])
    as (h2 & h3 & S2 & H2 & _ & _ & _ & R3 & _ & G3);
    [vm_compute; reflexivity | reflexivity | reflexivity |].
  exists h2, h3. split; [exact S2 |]. split; [exact H2 |]. split; [exact R3 |].
  destruct (G3 10%N) as (out' & hs' & Ga & Gb & _).
  exists out', hs'. split; [exact Ga | exact Gb].
Defined.

End Witnesses.

(** ** The definitions at concrete inputs *)

Module Examples.
Import PostHeader Scenario.

Example strcasecmp_ignores_case :
  LibC.strcasecmp "hOsT" "Host" = 0 /\ LibC.strcasecmp "Hosts" "Host" = 115 /\
  LibC.strcasecmp "Connection" "LETV-ZIP" = -9.
Proof. repeat split. Qed.

Example Generate_ready :
  emitted (Generate ready 10) =
  Some ("POST /up HTTP/1.1" ++ Str.CRLF ++ "Host: example.org" ++ Str.CRLF ++
        "User-Agent: pipe/0.0.1" ++ Str.CRLF ++ "Accept: */*" ++ Str.CRLF ++
        "LETV-TV-MAC: 0011223344ff" ++ Str.CRLF ++
        "Content-Length: 10" ++ Str.CRLF ++ Str.CRLF, 124).
Proof. vm_compute. reflexivity. Qed.

Example Generate_short_and_compressed :
  emitted (h1 <- SetField ready "Connection" (Some "Close") ;;
           h2 <- SetField h1 "LETV-ZIP" (Some "1") ;;
           Generate h2 7) =
  Some (Wire.request_head "/up" "example.org" mac true false 7, 155).
Proof. vm_compute. reflexivity. Qed.

Example Generate_without_mac :
  (h <- run init [request "/up"; CSetField "Host" (Some "example.org")] ;;
   Generate h 10) = Undefined.
Proof. reflexivity. Qed.

Example Generate_past_the_array :
  (h <- run init [request (Str.fill "p" 2000); CSetField "Host" (Some "example.org");
                  CSetField "LETV-TV-MAC" (Some mac)] ;;
   Generate h 10) = Undefined.
Proof. vm_compute. reflexivity. Qed.

Example second_SetRequest :
  run init [request "/up"; request "/down"] = AssertFail in_SetRequest.
Proof. reflexivity. Qed.

Example unknown_field :
  SetField init "Accept" (Some "text/plain") = AssertFail in_SetField.
Proof. reflexivity. Qed.

Example retried_run_delivers :
  Engine.delivered (Engine.Serve 2 3 (Engine.Init payload) retried_run) =
  [firstn 2 payload; skipn 2 payload].
Proof. reflexivity. Qed.

Example windows_of_two :
  TransferWindowGuard.windows 1 3 TransferWindowGuard.zero [] two_windows =
  [[TransferWindowGuard.Idle; TransferWindowGuard.Busy; TransferWindowGuard.Busy;
    TransferWindowGuard.Busy];
   [TransferWindowGuard.Busy; TransferWindowGuard.Idle]].
Proof. reflexivity. Qed.

End Examples.

(** ** [strtoul] on what [%zu] prints *)

Module StrtoFacts.
Import Strto.

Lemma digits_uint (d : Decimal.uint) (acc : Z) (rest : string) :
  starts_with_digit rest = false ->
  digits acc (NilEmpty.string_of_uint d ++ rest) = (uint_val d acc, rest).
Proof.
  intros Hr. revert acc.
  induction d as [|d IH|d IH|d IH|d IH|d IH|d IH|d IH|d IH|d IH|d IH];
    intros acc; try (simpl; apply IH).
  simpl. destruct rest as [|c rest]; [reflexivity |].
  simpl in Hr. simpl. now rewrite Hr.
Qed.

Lemma uint_val_acc (d : Decimal.uint) (a : positive) :
  uint_val d (Z.pos a) = Z.pos (Pos.of_uint_acc d a).
Proof.
  revert a.
  induction d as [|d IH|d IH|d IH|d IH|d IH|d IH|d IH|d IH|d IH|d IH];
    intros a; [reflexivity | ..];
    cbn [uint_val Pos.of_uint_acc]; rewrite <- IH; f_equal;
    lia.
Qed.

Lemma uint_val_of_uint (d : Decimal.uint) :
  uint_val d 0 = Z.of_N (N.of_uint d).
Proof.
  unfold N.of_uint.
  induction d as [|d IH|d IH|d IH|d IH|d IH|d IH|d IH|d IH|d IH|d IH];
    simpl; try reflexivity; try exact IH; apply uint_val_acc.
Qed.

(** [%zu] prints the numeral of [N.to_uint], which is never empty. *)
Lemma fmt_zu_numeral (n : N) :
  LibC.fmt_zu n = NilEmpty.string_of_uint (N.to_uint n).
Proof.
  unfold LibC.fmt_zu, NilZero.string_of_uint.
  destruct (N.to_uint n) eqn:E; try reflexivity.
  destruct n as [|p]; [discriminate |].
  simpl in E. now apply DecimalPos.Unsigned.to_uint_nonnil in E.
Qed.

Lemma fmt_zu_starts_with_digit (n : N) (rest : string) :
  exists (c : ascii) (s : string),
    LibC.fmt_zu n ++ rest = String c s /\ isdigit c = true.
Proof.
  rewrite fmt_zu_numeral.
  destruct (N.to_uint n) eqn:E; simpl; eauto.
  destruct n as [|p]; [discriminate |].
  simpl in E. now apply DecimalPos.Unsigned.to_uint_nonnil in E.
Qed.

Lemma digits_fmt_zu (n : N) (rest : string) :
  starts_with_digit rest = false ->
  digits 0 (LibC.fmt_zu n ++ rest) = (Z.of_N n, rest).
Proof.
  intros Hr. rewrite fmt_zu_numeral, digits_uint by exact Hr.
  now rewrite uint_val_of_uint, DecimalN.Unsigned.of_to.
Qed.

Lemma isdigit_not_space (c : ascii) : isdigit c = true -> isspace c = false.
Proof.
  unfold isdigit, isspace. intros H. apply andb_prop in H as [H1 H2].
  apply orb_false_intro; [lia |]. apply andb_false_intro2. lia.
Qed.

Lemma isdigit_not_sign (c : ascii) (s : string) :
  isdigit c = true -> sign (String c s) = (false, String c s).
Proof.
  intros H. unfold sign.
  destruct (Ascii.eqb_spec c "-") as [-> | N1]; [discriminate |].
  destruct (Ascii.eqb_spec c "+") as [-> | N2]; [discriminate |].
  destruct c as [[|] [|] [|] [|] [|] [|] [|] [|]]; try reflexivity; congruence.
Qed.

(** [strtoul] on a numeral, whatever follows that does not start with a
    digit. *)
Lemma strtoul_numeral (n : N) (rest : string) :
  starts_with_digit rest = false ->
  strtoul (LibC.fmt_zu n ++ rest) =
  if ULONG_MAX <? Z.of_N n then (ULONG_MAX, rest, true)
  else (Z.of_N n, rest, false).
Proof.
  intros Hr. unfold strtoul.
  destruct (fmt_zu_starts_with_digit n rest) as (c & s & E & Hc).
  rewrite E. simpl skip_space. rewrite (isdigit_not_space c Hc).
  rewrite (isdigit_not_sign c s Hc). simpl starts_with_digit. rewrite Hc.
  rewrite <- E, digits_fmt_zu by exact Hr. reflexivity.
Qed.

(** The same after a minus sign. *)
Lemma strtoul_minus (n : N) (rest : string) :
  starts_with_digit rest = false ->
  strtoul (String "-" (LibC.fmt_zu n ++ rest)) =
  if ULONG_MAX <? Z.of_N n then (ULONG_MAX, rest, true)
  else ((- Z.of_N n) mod 2 ^ 64, rest, false).
Proof.
  intros Hr. unfold strtoul.
  destruct (fmt_zu_starts_with_digit n rest) as (c & s & E & Hc).
  rewrite E. simpl skip_space. simpl sign. cbv beta iota.
  simpl starts_with_digit. rewrite Hc.
  rewrite <- E, digits_fmt_zu by exact Hr. reflexivity.
Qed.

Lemma digits_nonneg (s : string) (acc : Z) : 0 <= acc -> 0 <= fst (digits acc s).
Proof.
  revert acc. induction s as [|c s IH]; intros acc Ha; [exact Ha |].
  cbn [digits]. destruct (isdigit c) eqn:Hc; [| exact Ha].
  apply IH. unfold isdigit in Hc. apply andb_prop in Hc as [H1 H2]. lia.
Qed.

(** [strtoul] returns an [unsigned long]. *)
Lemma strtoul_range (s : string) :
  0 <= fst (fst (strtoul s)) < 2 ^ 64.
Proof.
  unfold strtoul. destruct (sign (skip_space s)) as [neg s'].
  destruct (starts_with_digit s'); [| simpl; lia].
  pose proof (digits_nonneg s' 0 ltac:(lia)) as Hd.
  destruct (digits 0 s') as [v rest]. simpl in Hd.
  unfold ULONG_MAX. destruct (Z.ltb_spec (2 ^ 64 - 1) v); simpl; [lia |].
  destruct neg; [apply Z.mod_pos_bound |]; lia.
Qed.

End StrtoFacts.

(** ** The numeric options *)

Module OptionsSpec.
Import Strto Options StrtoFacts.

Lemma append_empty (s : string) : s ++ "" = s.
Proof. induction s as [|c s IH]; simpl; [reflexivity | now rewrite IH]. Qed.

(** The three functions on a numeral of an [unsigned long] followed by a
    character that is no digit. *)
Lemma scaled_numeral (cases : ascii -> suffix) (n : N) (c : ascii) (rest : string) :
  Z.of_N n < 2 ^ 64 -> isdigit c = false ->
  scaled cases (strtoul (LibC.fmt_zu n ++ String c rest)) =
  match cases c with
  | Plain => Returns (Z.of_N n)
  | Times u => Returns ((Z.of_N n * u) mod 2 ^ 64)
  | Refused => Exits 1
  end.
Proof.
  intros Hn Hc. rewrite strtoul_numeral by exact Hc.
  unfold ULONG_MAX. replace (2 ^ 64 - 1 <? Z.of_N n) with false by (symmetry; lia).
  reflexivity.
Qed.

Lemma scaled_numeral_end (cases : ascii -> suffix) (n : N) :
  Z.of_N n < 2 ^ 64 ->
  scaled cases (strtoul (LibC.fmt_zu n)) =
  match cases zero with
  | Plain => Returns (Z.of_N n)
  | Times u => Returns ((Z.of_N n * u) mod 2 ^ 64)
  | Refused => Exits 1
  end.
Proof.
  intros Hn. rewrite <- (append_empty (LibC.fmt_zu n)).
  rewrite strtoul_numeral by reflexivity.
  unfold ULONG_MAX. replace (2 ^ 64 - 1 <? Z.of_N n) with false by (symmetry; lia).
  reflexivity.
Qed.

Ltac numeral :=
  unfold ParseSize, ParseRate, ParseInterval;
  first [ rewrite scaled_numeral by (assumption || reflexivity)
        | rewrite scaled_numeral_end by assumption ];
  reflexivity.

(** Extra X1.  [ParseSize] reads back what [%zu] prints: the numeral of a
    size below 2^64 gives that size, and followed by k or K, or by m or M,
    gives it times 1024, or times 1024 * 1024, reduced modulo 2^64: the
    product is not checked for overflow. *)
Theorem ParseSize_numeral (n : N) :
  Z.of_N n < 2 ^ 64 ->
  ParseSize (LibC.fmt_zu n) = Returns (Z.of_N n) /\
  ParseSize (LibC.fmt_zu n ++ "k") = Returns ((Z.of_N n * 1024) mod 2 ^ 64) /\
  ParseSize (LibC.fmt_zu n ++ "K") = Returns ((Z.of_N n * 1024) mod 2 ^ 64) /\
  ParseSize (LibC.fmt_zu n ++ "m") = Returns ((Z.of_N n * 1048576) mod 2 ^ 64) /\
  ParseSize (LibC.fmt_zu n ++ "M") = Returns ((Z.of_N n * 1048576) mod 2 ^ 64).
Proof. intros Hn. repeat split; numeral. Qed.

(** Extra X2.  [ParseRate] reads a rate in bits and returns bytes: the
    numeral of a number below 2^64 gives an eighth of it, rounded down, and
    followed by k or K, or by m or M, an eighth of it times 1000, or times
    1000000, the product reduced modulo 2^64 first. *)
Theorem ParseRate_numeral (n : N) :
  Z.of_N n < 2 ^ 64 ->
  ParseRate (LibC.fmt_zu n) = Returns (Z.of_N n / 8) /\
  ParseRate (LibC.fmt_zu n ++ "k") = Returns ((Z.of_N n * 1000) mod 2 ^ 64 / 8) /\
  ParseRate (LibC.fmt_zu n ++ "K") = Returns ((Z.of_N n * 1000) mod 2 ^ 64 / 8) /\
  ParseRate (LibC.fmt_zu n ++ "m") = Returns ((Z.of_N n * 1000000) mod 2 ^ 64 / 8) /\
  ParseRate (LibC.fmt_zu n ++ "M") = Returns ((Z.of_N n * 1000000) mod 2 ^ 64 / 8).
Proof. intros Hn. repeat split; numeral. Qed.

(** Extra X3.  [ParseInterval] reads seconds: the numeral of a number below
    2^64, alone or followed by s or S, gives that number; followed by m or
    M, or by h or H, it gives it times 60, or times 3600, reduced modulo
    2^64. *)
Theorem ParseInterval_numeral (n : N) :
  Z.of_N n < 2 ^ 64 ->
  ParseInterval (LibC.fmt_zu n) = Returns (Z.of_N n) /\
  ParseInterval (LibC.fmt_zu n ++ "s") = Returns (Z.of_N n) /\
  ParseInterval (LibC.fmt_zu n ++ "S") = Returns (Z.of_N n) /\
  ParseInterval (LibC.fmt_zu n ++ "m") = Returns ((Z.of_N n * 60) mod 2 ^ 64) /\
  ParseInterval (LibC.fmt_zu n ++ "M") = Returns ((Z.of_N n * 60) mod 2 ^ 64) /\
  ParseInterval (LibC.fmt_zu n ++ "h") = Returns ((Z.of_N n * 3600) mod 2 ^ 64) /\
  ParseInterval (LibC.fmt_zu n ++ "H") = Returns ((Z.of_N n * 3600) mod 2 ^ 64).
Proof. intros Hn. repeat split; numeral. Qed.

(** Extra X4.  After a numeral, the three functions look at one character
    and at nothing behind it: what follows that character changes neither
    the value nor whether the process exits. *)
Theorem text_after_the_suffix_is_not_read (n : N) (c : ascii) (rest : string) :
  isdigit c = false ->
  ParseSize (LibC.fmt_zu n ++ String c rest) =
  ParseSize (LibC.fmt_zu n ++ String c "") /\
  ParseRate (LibC.fmt_zu n ++ String c rest) =
  ParseRate (LibC.fmt_zu n ++ String c "") /\
  ParseInterval (LibC.fmt_zu n ++ String c rest) =
  ParseInterval (LibC.fmt_zu n ++ String c "").
Proof.
  intros Hc. unfold ParseSize, ParseRate, ParseInterval.
  rewrite !strtoul_numeral by exact Hc.
  destruct (ULONG_MAX <? Z.of_N n); repeat split; reflexivity.
Qed.

(** Extra X5.  A numeral of 2^64 or more makes each of the three functions
    exit with status 1, with or without a minus sign, and whatever follows
    the digits. *)
Theorem numeral_out_of_range_exits (n : N) (rest : string) :
  2 ^ 64 <= Z.of_N n -> starts_with_digit rest = false ->
  ParseSize (LibC.fmt_zu n ++ rest) = Exits 1 /\
  ParseRate (LibC.fmt_zu n ++ rest) = Exits 1 /\
  ParseInterval (LibC.fmt_zu n ++ rest) = Exits 1 /\
  ParseSize (String "-" (LibC.fmt_zu n ++ rest)) = Exits 1 /\
  ParseRate (String "-" (LibC.fmt_zu n ++ rest)) = Exits 1 /\
  ParseInterval (String "-" (LibC.fmt_zu n ++ rest)) = Exits 1.
Proof.
  intros Hn Hr. unfold ParseSize, ParseRate, ParseInterval.
  rewrite strtoul_numeral, strtoul_minus by exact Hr.
  unfold ULONG_MAX. replace (2 ^ 64 - 1 <? Z.of_N n) with true by (symmetry; lia).
  repeat split; reflexivity.
Qed.

Lemma strtoul_no_number (s : string) :
  no_number s = true -> strtoul s = (0, s, false).
Proof.
  unfold no_number, strtoul. destruct (sign (skip_space s)) as [neg s'].
  simpl. intros H. apply negb_true_iff in H. now rewrite H.
Qed.

(** Extra X6.  An argument in which no number is found is not refused for
    that: each function then looks at the very first character of the
    argument, and returns 0 when that character is one its [switch]
    accepts; so the empty argument, and an argument that starts with an
    accepted letter, read as 0. *)
Theorem missing_number_reads_as_zero (s : string) :
  no_number s = true ->
  (size_unit (deref s) <> Refused -> ParseSize s = Returns 0) /\
  (rate_unit (deref s) <> Refused -> ParseRate s = Returns 0) /\
  (interval_unit (deref s) <> Refused -> ParseInterval s = Returns 0) /\
  (size_unit (deref s) = Refused -> ParseSize s = Exits 1) /\
  (rate_unit (deref s) = Refused -> ParseRate s = Exits 1) /\
  (interval_unit (deref s) = Refused -> ParseInterval s = Exits 1).
Proof.
  intros H. unfold ParseSize, ParseRate, ParseInterval.
  rewrite (strtoul_no_number s H). unfold scaled.
  repeat split; intros Hu.
  - destruct (size_unit (deref s)); try reflexivity; congruence.
  - destruct (rate_unit (deref s)); try reflexivity; congruence.
  - destruct (interval_unit (deref s)); try reflexivity; congruence.
  - now rewrite Hu.
  - now rewrite Hu.
  - now rewrite Hu.
Qed.

(** Extra X7.  A minus sign is accepted: the numeral of a number from 1 to
    2^64 - 1 after a minus sign reads as 2^64 minus that number, so that
    "-1" is the largest size. *)
Theorem minus_sign_wraps (n : N) :
  0 < Z.of_N n < 2 ^ 64 ->
  ParseSize (String "-" (LibC.fmt_zu n)) = Returns (2 ^ 64 - Z.of_N n) /\
  ParseRate (String "-" (LibC.fmt_zu n)) = Returns ((2 ^ 64 - Z.of_N n) / 8) /\
  ParseInterval (String "-" (LibC.fmt_zu n)) = Returns (2 ^ 64 - Z.of_N n).
Proof.
  intros Hn. unfold ParseSize, ParseRate, ParseInterval.
  rewrite <- (append_empty (LibC.fmt_zu n)).
  rewrite strtoul_minus by reflexivity.
  unfold ULONG_MAX. replace (2 ^ 64 - 1 <? Z.of_N n) with false by (symmetry; lia).
  assert (E : (- Z.of_N n) mod 2 ^ 64 = 2 ^ 64 - Z.of_N n).
  { symmetry. apply (Z.mod_unique _ _ (-1)); lia. }
  rewrite E. repeat split; reflexivity.
Qed.

End OptionsSpec.

(** ** The loop over the options *)

Module ParseOptionsSpec.
Import Strto Options StrtoFacts.
Local Open Scope list_scope.

Ltac each_option opt :=
  destruct opt as [[|] [|] [|] [|] [|] [|] [|] [|]];
  cbv beta iota delta [option_case set_number Ascii.eqb Bool.eqb andb].

(** What one option does to the destination. *)
Lemma option_case_destination (o o' : t) (opt : ascii) (optarg : string) :
  option_case o opt optarg = Returns o' ->
  destination o' =
  if Ascii.eqb opt "d" then Main.ParseOptions_d optarg else destination o.
Proof.
  each_option opt; intros H;
    repeat match type of H with
           | match ?r with Returns _ => _ | Exits _ => _ end = _ =>
               destruct r; try discriminate H
           end;
    try discriminate H; injection H as <-; reflexivity.
Qed.

Lemma option_loop_destination (gs : list (ascii * string)) :
  forall o o' : t,
    option_loop o gs = Returns o' ->
    destination o' =
    match last_d gs with
    | Some a => Main.ParseOptions_d a
    | None => destination o
    end.
Proof.
  induction gs as [|[opt optarg] gs IH]; intros o o' H; simpl in H.
  - now injection H as <-.
  - destruct (option_case o opt optarg) as [o1|st] eqn:E; [| discriminate].
    rewrite (IH o1 o' H). simpl.
    destruct (last_d gs); [reflexivity |].
    rewrite (option_case_destination _ _ _ _ E).
    destruct (Ascii.eqb opt "d"); reflexivity.
Qed.

(** Extra X8.  When [ParseOptions] returns, a [-d] was given, and the
    destination is what the last [-d] gave, cut to 1023 characters, and is
    not empty; without any [-d], or with an empty last one, the process
    exits with status 1 unless an option made it exit before. *)
Theorem ParseOptions_destination (gs : list (ascii * string)) :
  (forall o : t,
      ParseOptions gs = Returns o ->
      exists a : string,
        last_d gs = Some a /\ destination o = Str.take 1023 a /\
        destination o <> "" /\ (String.length (destination o) <= 1023)%nat) /\
  (last_d gs = None \/ last_d gs = Some "" ->
   exists st : Z, ParseOptions gs = Exits st).
Proof.
  unfold ParseOptions. split.
  - intros o H.
    destruct (option_loop initial gs) as [o1|st] eqn:L; [| discriminate].
    pose proof (option_loop_destination gs initial o1 L) as D.
    destruct (destination o1) as [|c d] eqn:E; [discriminate |].
    injection H as <-. rewrite E.
    destruct (last_d gs) as [a|]; [| discriminate D].
    exists a. split; [reflexivity |]. split; [exact D |].
    split; [discriminate |].
    rewrite D. unfold Main.ParseOptions_d, Main.sizeof_destination.
    rewrite length_take. apply Nat.le_min_l.
  - intros Hd.
    destruct (option_loop initial gs) as [o1|st] eqn:L; [| eauto].
    pose proof (option_loop_destination gs initial o1 L) as D.
    destruct Hd as [Hd | Hd]; rewrite Hd in D; simpl in D; rewrite D.
    + eauto.
    + unfold Main.ParseOptions_d. rewrite take_all by (simpl; lia). eauto.
Qed.

Lemma scaled_exit (cases : ascii -> suffix) (r : Z * string * bool) (st : Z) :
  scaled cases r = Exits st -> st = 1.
Proof.
  destruct r as [[v e] b]. unfold scaled.
  destruct b; [now intros [= <-] |].
  destruct (cases (deref e)); try discriminate. now intros [= <-].
Qed.

Lemma ParseRate_exit (s : string) (st : Z) : ParseRate s = Exits st -> st = 1.
Proof.
  unfold ParseRate.
  destruct (scaled rate_unit (strtoul s)) eqn:E; [discriminate |].
  intros [= <-]. now apply scaled_exit in E.
Qed.

(** One option exits with 0 exactly when it is [-h] or [-v], and otherwise
    with 1 if it exits. *)
Lemma option_case_exit (o : t) (opt : ascii) (optarg : string) (st : Z) :
  option_case o opt optarg = Exits st ->
  (st = 0 /\ (opt = "h" \/ opt = "v")%char) \/
  (st = 1 /\ opt <> "h"%char /\ opt <> "v"%char).
Proof.
  each_option opt; intros H;
    repeat match type of H with
           | match ?r with Returns _ => _ | Exits _ => _ end = _ =>
               let E := fresh "E" in
               destruct r eqn:E; try discriminate H
           end;
    try discriminate H; injection H as <-;
    try (left; split; [reflexivity | (left; reflexivity) || (right; reflexivity)]);
    right;
    (split; [first [ reflexivity
                   | eapply scaled_exit; eassumption
                   | eapply ParseRate_exit; eassumption ]
            | split; discriminate ]).
Qed.

Lemma option_case_help (o : t) (opt : ascii) (optarg : string) :
  (opt = "h" \/ opt = "v")%char -> option_case o opt optarg = Exits 0.
Proof. intros [-> | ->]; reflexivity. Qed.

Lemma option_loop_exit (gs : list (ascii * string)) :
  forall (o : t) (st : Z),
    option_loop o gs = Exits st ->
    (st = 1 \/ st = 0) /\
    (st = 0 <->
     exists pre opt a post o',
       gs = pre ++ (opt, a) :: post /\ (opt = "h" \/ opt = "v")%char /\
       option_loop o pre = Returns o').
Proof.
  induction gs as [|[opt optarg] gs IH]; intros o st H; simpl in H;
    [discriminate |].
  destruct (option_case o opt optarg) as [o1|st1] eqn:E.
  - destruct (IH o1 st H) as [R I]. split; [exact R |].
    rewrite I. split.
    + intros (pre & opt' & a & post & o' & -> & Ho & L).
      exists ((opt, optarg) :: pre), opt', a, post, o'.
      split; [reflexivity |]. split; [exact Ho |]. simpl. now rewrite E.
    + intros (pre & opt' & a & post & o' & G & Ho & L).
      destruct pre as [|[x y] pre]; simpl in G; injection G as -> -> ->.
      * rewrite (option_case_help o opt' a Ho) in E. discriminate.
      * simpl in L. rewrite E in L. eauto 10.
  - injection H as <-.
    destruct (option_case_exit _ _ _ _ E) as [[-> Ho] | (-> & N1 & N2)].
    + split; [now right |]. split; [| reflexivity]. intros _.
      exists [], opt, optarg, gs, o. auto.
    + split; [now left |]. split; [discriminate |].
      intros (pre & opt' & a & post & o' & G & Ho & L). exfalso.
      destruct pre as [|[x y] pre]; simpl in G; injection G as -> -> ->.
      * destruct Ho; congruence.
      * simpl in L. rewrite E in L. discriminate.
Qed.

(** Extra X9.  [ParseOptions] exits with status 0 or 1 only, and with 0
    exactly when it meets [-h] or [-v] after options that all went
    through; the missing destination, which is looked at after the loop,
    then goes unnoticed. *)
Theorem ParseOptions_exit_status (gs : list (ascii * string)) :
  (forall st : Z, ParseOptions gs = Exits st -> st = 0 \/ st = 1) /\
  (ParseOptions gs = Exits 0 <->
   exists pre opt a post o,
     gs = pre ++ (opt, a) :: post /\ (opt = "h" \/ opt = "v")%char /\
     option_loop initial pre = Returns o).
Proof.
  unfold ParseOptions.
  destruct (option_loop initial gs) as [o1|st1] eqn:L.
  - split.
    + intros st H. destruct (destination o1); [| discriminate].
      injection H as <-. now right.
    + split.
      * intros H. destruct (destination o1); discriminate.
      * intros (pre & opt & a & post & o & -> & Ho & Lp). exfalso.
        clear - L Ho Lp. revert L Lp. generalize initial.
        induction pre as [|[x y] pre IH]; intros o0 L Lp; simpl in *.
        -- rewrite (option_case_help o0 opt a Ho) in L. discriminate.
        -- destruct (option_case o0 x y); [eauto | discriminate].
  - destruct (option_loop_exit gs initial st1 L) as [R I]. split.
    + intros st [= <-]. destruct R; auto.
    + rewrite <- I. split; [now intros [= <-] | now intros ->].
Qed.

Lemma strtol_numeral (n : N) :
  strtol (LibC.fmt_zu n) = Z.min LONG_MAX (Z.of_N n) /\
  strtol (String "-" (LibC.fmt_zu n)) = Z.max LONG_MIN (- Z.of_N n).
Proof.
  unfold strtol.
  destruct (fmt_zu_starts_with_digit n "") as (c & s & E & Hc).
  rewrite OptionsSpec.append_empty in E.
  pose proof (digits_fmt_zu n "" eq_refl) as D.
  rewrite OptionsSpec.append_empty in D.
  split.
  - rewrite E. simpl skip_space. rewrite (isdigit_not_space c Hc).
    rewrite (isdigit_not_sign c s Hc). simpl starts_with_digit. rewrite Hc.
    rewrite <- E, D. reflexivity.
  - rewrite E. simpl skip_space. simpl sign. cbv beta iota.
    simpl starts_with_digit. rewrite Hc. rewrite <- E, D. reflexivity.
Qed.

(** Extra X10.  The options read with [atoi], which are [-c], [-n], [-l]
    and [-L], never make the process exit and never refuse their argument:
    an argument with no number counts as 0, the numeral of a count below
    2^31 as that count, and the numeral of a count from 1 to 2^31 after a
    minus sign as 2^64 minus that count. *)
Theorem atoi_options_take_anything (opt : ascii) (field : t -> Z) (o : t) (n : N) :
  In (opt, field) atoi_options ->
  (forall optarg : string,
      exists o' : t,
        option_case o opt optarg = Returns o' /\
        field o' = to_size_t (atoi optarg) /\
        (no_number optarg = true -> field o' = 0)) /\
  (Z.of_N n < 2 ^ 31 ->
   exists o' : t,
     option_case o opt (LibC.fmt_zu n) = Returns o' /\ field o' = Z.of_N n) /\
  (0 < Z.of_N n <= 2 ^ 31 ->
   exists o' : t,
     option_case o opt (String "-" (LibC.fmt_zu n)) = Returns o' /\
     field o' = 2 ^ 64 - Z.of_N n).
Proof.
  intros Hin.
  assert (Hcase : forall optarg, exists o',
             option_case o opt optarg = Returns o' /\
             field o' = to_size_t (atoi optarg)).
  { intros optarg. simpl in Hin.
    destruct Hin as [E | [E | [E | [E | []]]]]; injection E as <- <-;
      eexists; split; reflexivity. }
  split; [| split].
  - intros optarg. destruct (Hcase optarg) as (o' & C & F).
    exists o'. split; [exact C |]. split; [exact F |].
    intros Hn. rewrite F. unfold atoi, strtol.
    unfold no_number in Hn. destruct (sign (skip_space optarg)) as [neg s'].
    simpl in Hn. apply negb_true_iff in Hn. rewrite Hn. reflexivity.
  - intros Hn. destruct (Hcase (LibC.fmt_zu n)) as (o' & C & F).
    exists o'. split; [exact C |]. rewrite F.
    unfold atoi. rewrite (proj1 (strtol_numeral n)).
    unfold LONG_MAX, to_int, to_size_t.
    rewrite Z.min_r by lia.
    rewrite (Z.mod_small (Z.of_N n + 2 ^ 31)) by lia.
    replace (Z.of_N n + 2 ^ 31 - 2 ^ 31) with (Z.of_N n) by lia.
    apply Z.mod_small. lia.
  - intros Hn. destruct (Hcase (String "-" (LibC.fmt_zu n))) as (o' & C & F).
    exists o'. split; [exact C |]. rewrite F.
    unfold atoi. rewrite (proj2 (strtol_numeral n)).
    unfold LONG_MIN, to_int, to_size_t.
    rewrite Z.max_r by lia.
    rewrite (Z.mod_small (- Z.of_N n + 2 ^ 31)) by lia.
    replace (- Z.of_N n + 2 ^ 31 - 2 ^ 31) with (- Z.of_N n) by lia.
    symmetry. apply (Z.mod_unique _ _ (-1)); lia.
Qed.

End ParseOptionsSpec.

(** ** The hardware address as text *)

Module MacSpec.
Import Strto Mac.
Local Open Scope list_scope.

(** The six turns of the loop put the six conversions one after the
    other. *)
Lemma format_mac_unfolded (from : list ascii) :
  format_mac from =
  (fmt_02x (nth 0 from zero) ++ fmt_02x (nth 1 from zero) ++
   fmt_02x (nth 2 from zero) ++ fmt_02x (nth 3 from zero) ++
   fmt_02x (nth 4 from zero) ++ fmt_02x (nth 5 from zero) ++ "")%string.
Proof.
  unfold format_mac. cbv beta iota delta [format_loop fmt_02x].
  repeat match goal with
         | |- context [hex ?x] => generalize (hex x); intro
         end.
  vm_compute. reflexivity.
Qed.

Lemma decode_fmt_02x (b : ascii) (s : string) :
  decode (fmt_02x b ++ s)%string = b :: decode s.
Proof.
  unfold fmt_02x. cbn [String.append decode]. f_equal.
  destruct b as [[|] [|] [|] [|] [|] [|] [|] [|]]; vm_compute; reflexivity.
Qed.

Lemma fmt_02x_lower_hex (b : ascii) (s : string) :
  all_chars is_lower_hex (fmt_02x b ++ s)%string = all_chars is_lower_hex s.
Proof.
  unfold fmt_02x. cbn [String.append all_chars].
  replace (is_lower_hex (hex (code b / 16))) with true
    by (destruct b as [[|] [|] [|] [|] [|] [|] [|] [|]]; vm_compute; reflexivity).
  replace (is_lower_hex (hex (code b mod 16))) with true
    by (destruct b as [[|] [|] [|] [|] [|] [|] [|] [|]]; vm_compute; reflexivity).
  reflexivity.
Qed.

(** Extra X11.  The text [GetMacAddress] makes of the six address bytes is
    twelve characters, each a digit or a letter from a to f, and gives the
    six bytes back when read as hexadecimal: two addresses with the same
    text are the same address. *)
Theorem format_mac_is_twelve_hex_digits (from from' : list ascii) :
  String.length (format_mac from) = 12%nat /\
  all_chars is_lower_hex (format_mac from) = true /\
  decode (format_mac from) = map (fun i => nth i from zero) [0; 1; 2; 3; 4; 5]%nat /\
  (format_mac from = format_mac from' ->
   map (fun i => nth i from zero) [0; 1; 2; 3; 4; 5]%nat =
   map (fun i => nth i from' zero) [0; 1; 2; 3; 4; 5]%nat).
Proof.
  assert (D : forall l, decode (format_mac l) =
                        map (fun i => nth i l zero) [0; 1; 2; 3; 4; 5]%nat).
  { intros l. rewrite format_mac_unfolded.
    rewrite !decode_fmt_02x. reflexivity. }
  split; [| split; [| split]].
  - rewrite format_mac_unfolded. unfold fmt_02x. reflexivity.
  - rewrite format_mac_unfolded. rewrite !fmt_02x_lower_hex. reflexivity.
  - apply D.
  - intros E. rewrite <- !D. now rewrite E.
Qed.

End MacSpec.

(** ** How long a numeral is *)

Module NumeralFacts.
Import Strto StrtoFacts.

Lemma string_of_uint_length (d : Decimal.uint) :
  String.length (NilEmpty.string_of_uint d) = Decimal.nb_digits d.
Proof.
  induction d as [|d IH|d IH|d IH|d IH|d IH|d IH|d IH|d IH|d IH|d IH];
    simpl; congruence.
Qed.

Lemma uint_val_lower (d : Decimal.uint) (acc : Z) :
  0 <= acc -> acc * 10 ^ Z.of_nat (Decimal.nb_digits d) <= uint_val d acc.
Proof.
  revert acc.
  induction d as [|d IH|d IH|d IH|d IH|d IH|d IH|d IH|d IH|d IH|d IH];
    intros acc Ha; cbn [uint_val Decimal.nb_digits];
    [simpl; lia | ..];
    rewrite Nat2Z.inj_succ, Z.pow_succ_r by lia;
    (etransitivity; [| apply IH; lia]);
    pose proof (Z.pow_nonneg 10 (Z.of_nat (Decimal.nb_digits d)) ltac:(lia));
    nia.
Qed.

Lemma nzhead_not_D0 (d : Decimal.uint) :
  match Decimal.nzhead d with Decimal.D0 _ => False | _ => True end.
Proof.
  induction d as [|d IH|d IH|d IH|d IH|d IH|d IH|d IH|d IH|d IH|d IH];
    simpl; auto.
Qed.

Lemma to_uint_normal (n : N) : Decimal.unorm (N.to_uint n) = N.to_uint n.
Proof.
  rewrite <- DecimalN.Unsigned.to_of. now rewrite DecimalN.Unsigned.of_to.
Qed.

(** A numeral of [k] digits that starts with no zero writes at least
    [10 ^ (k - 1)]. *)
Lemma numeral_lower (n : N) :
  n <> 0%N ->
  10 ^ (Z.of_nat (String.length (LibC.fmt_zu n)) - 1) <= Z.of_N n.
Proof.
  intros Hn. rewrite fmt_zu_numeral, string_of_uint_length.
  rewrite <- (DecimalN.Unsigned.of_to n) at 2. rewrite <- uint_val_of_uint.
  pose proof (to_uint_normal n) as E. unfold Decimal.unorm in E.
  pose proof (nzhead_not_D0 (N.to_uint n)) as Z0.
  destruct (Decimal.nzhead (N.to_uint n)) as [|d|d|d|d|d|d|d|d|d|d] eqn:H;
    try contradiction;
    rewrite <- E;
    [ exfalso; apply Hn; rewrite <- (DecimalN.Unsigned.of_to n), <- E; reflexivity
    | .. ];
    cbn [uint_val Decimal.nb_digits];
    rewrite Nat2Z.inj_succ;
    replace (Z.succ (Z.of_nat (Decimal.nb_digits d)) - 1)
      with (Z.of_nat (Decimal.nb_digits d)) by lia;
    (etransitivity; [| apply uint_val_lower; lia]);
    pose proof (Z.pow_nonneg 10 (Z.of_nat (Decimal.nb_digits d)) ltac:(lia));
    nia.
Qed.

(** [%zu] prints at most twenty digits. *)
Lemma fmt_zu_length (n : N) :
  Z.of_N n < 2 ^ 64 -> (String.length (LibC.fmt_zu n) <= 20)%nat.
Proof.
  intros Hn. destruct (N.eq_dec n 0) as [-> | Hz]; [simpl; lia |].
  pose proof (numeral_lower n Hz) as L.
  destruct (Nat.le_gt_cases (String.length (LibC.fmt_zu n)) 20) as [H | H];
    [exact H | exfalso].
  assert (P : 10 ^ 20 <= 10 ^ (Z.of_nat (String.length (LibC.fmt_zu n)) - 1))
    by (apply Z.pow_le_mono_r; lia).
  assert (Q : 2 ^ 64 < 10 ^ 20) by reflexivity.
  lia.
Qed.

Lemma length_tail_len (n : N) :
  Z.of_N n < 2 ^ 64 -> Str.len (PostHeader.length_tail n) <= 24.
Proof.
  intros Hn. pose proof (fmt_zu_length n Hn) as L.
  unfold PostHeader.length_tail, Str.len. rewrite !str_length_app.
  simpl String.length. lia.
Qed.

End NumeralFacts.

(** ** The header on every object the calls can build *)

Module ProgramSpec.
Import PostHeader PostHeaderFacts GenerateFacts Program.

Lemma len_take (k : nat) (s : string) :
  Str.len (Str.take k s) = Z.min (Z.of_nat k) (Str.len s).
Proof. unfold Str.len. rewrite length_take. lia. Qed.

(** The length of what the second [snprintf] leaves. *)
Lemma rewrite_tail_len (buf : string) (off : Z) (n : N) :
  0 < off <= sizeof_buffer ->
  Z.min off 2047 <= Str.len buf <= 2047 ->
  Str.len (rewrite_tail buf off n) = Z.min 2047 (off + Str.len (length_tail n)).
Proof.
  unfold rewrite_tail, sizeof_buffer. intros Ho Hb.
  pose proof (len_nonneg (length_tail n)) as Ht.
  destruct (Z.eqb_spec off 2048) as [E | E]; [lia |].
  unfold LibC.store_at.
  replace (Z.to_nat off <=? String.length buf)%nat with true
    by (symmetry; apply Nat.leb_le; unfold Str.len in Hb; lia).
  rewrite len_app, !len_take. lia.
Qed.

(** What a returning [Generate] leaves when [buffer_] held the prefix. *)
Lemma Generate_covers (h h1 : t) (n : N) (out : string) (hs : Z) :
  covers h -> Generate h n = Ok (h1, out, hs) ->
  Str.len out = Z.min 2047 hs /\ covers h1.
Proof.
  intros C G.
  apply Generate_Ok_inv in G as (hp & F & Hb & -> & Eo & ->).
  assert (Cp : Z.min (content_length_offset_ hp) 2047 <= Str.len (buffer_ hp) <= 2047).
  { destruct (fill_prefix_cases h hp F) as [[E ->] | (p & m & E & _ & _ & ->)].
    - destruct C as [C | [_ C]]; [congruence | exact C].
    - cbn [buffer_ content_length_offset_ with_offset with_buffer] in *.
      rewrite len_take. unfold sizeof_buffer in Hb. lia. }
  pose proof (rewrite_tail_len _ _ n Hb Cp) as L. rewrite <- Eo in L.
  pose proof (len_nonneg (length_tail n)) as Ht.
  split; [exact L |]. right.
  cbn [buffer_ content_length_offset_ with_offset with_buffer].
  split; [exact Hb | lia].
Qed.

Lemma SetField_buffer (h h' : t) (f : string) (v : option string) :
  SetField h f v = Ok h' ->
  buffer_ h' = buffer_ h /\
  (content_length_offset_ h' = content_length_offset_ h \/
   content_length_offset_ h' = 0).
Proof.
  revert h'. break_SetField; intros h' E; inversion E; subst; simpl; auto.
Qed.

Lemma step_covers (h h' : t) (c : call) :
  covers h -> step h c = Ok h' -> covers h'.
Proof.
  intros C. destruct c as [m u v | f v | n]; simpl.
  - unfold SetRequest. destruct (is_null (path_ h)); [| discriminate].
    intros E; injection E as <-. exact C.
  - intros E. apply SetField_buffer in E as [B [O | O]]; unfold covers in *;
      rewrite ?B, ?O; auto.
  - destruct (Generate h n) as [[[h1 out] hs]| |] eqn:G; simpl; try discriminate.
    intros E; injection E as <-. now apply (Generate_covers h h1 n out hs).
Qed.

Lemma run_covers (cs : list call) (h h' : t) :
  covers h -> run h cs = Ok h' -> covers h'.
Proof.
  revert h. induction cs as [|c cs IH]; intros h C R.
  - simpl in R. now injection R as <-.
  - rewrite run_cons in R.
    destruct (step h c) as [h1| |] eqn:E; simpl in R; try discriminate.
    apply (IH h1); [now apply (step_covers h h1 c) | exact R].
Qed.

(** Extra X12.  On every object that calls on a new header can build, a
    returning [Generate] hands back a header of the reported head size cut
    to 2047 characters: the header is never longer than 2047 characters,
    and the head size is its length exactly when the head size is at most
    2047, and more than its length otherwise. *)
Theorem head_size_and_length
    (cs : list call) (h h1 : t) (n : N) (out : string) (hs : Z) :
  run init cs = Ok h -> Generate h n = Ok (h1, out, hs) ->
  Str.len out = Z.min 2047 hs /\
  Str.len out <= 2047 /\
  (hs = Str.len out <-> hs <= 2047) /\
  (2047 < hs -> Str.len out < hs).
Proof.
  intros R G.
  assert (C : covers h) by (apply (run_covers cs init h); [now left | exact R]).
  destruct (Generate_covers h h1 n out hs C G) as [L _]. lia.
Qed.

Lemma pattern_len (p hst m : string) (c k : bool) :
  Str.len (pattern p hst m c k) =
  92 + Str.len p + Str.len hst + Str.len m +
  (if c then 13 else 0) + (if k then 0 else 19).
Proof.
  unfold pattern, program, version, Str.len.
  rewrite !str_length_app. destruct c, k; simpl String.length; lia.
Qed.

(** [Generate] on an object that holds strings of the program's sizes. *)
Lemma Generate_small (h : t) (p m : string) (n : N) :
  small h -> path_ h = Some p -> mac_ h = Some m -> Z.of_N n < 2 ^ 64 ->
  exists (h1 : t) (prefix : string),
    Generate h n = Ok (h1, prefix ++ length_tail n, Str.len (prefix ++ length_tail n)) /\
    Str.len prefix = content_length_offset_ h1 /\
    Str.len (prefix ++ length_tail n) <= 1361 /\
    (content_length_offset_ h = 0 ->
     prefix = pattern p (host_ h) m (compressed_ h) (persistent_ h)) /\
    small h1.
Proof.
  intros (Sp & Sm & Sh & So) Hp Hm Hn.
  pose proof (NumeralFacts.length_tail_len n Hn) as Lt.
  pose proof (len_nonneg (length_tail n)) as Lt0.
  rewrite Hp in Sp. rewrite Hm in Sm. simpl in Sp, Sm.
  destruct (Z.eqb_spec (content_length_offset_ h) 0) as [E | E].
  - set (text := pattern p (host_ h) m (compressed_ h) (persistent_ h)).
    assert (Lp : Str.len text <= 1337).
    { unfold text. rewrite pattern_len.
      destruct (compressed_ h), (persistent_ h); lia. }
    assert (Pos := pattern_len_pos p (host_ h) m (compressed_ h) (persistent_ h)).
    fold text in Pos.
    pose proof (Generate_fresh h p m n E Hp Hm) as G. fold text in G.
    rewrite G by (unfold sizeof_buffer; lia).
    rewrite take_all
      by (unfold Str.len in *; rewrite str_length_app; lia).
    eexists; exists text. split; [rewrite len_app; reflexivity |].
    split; [reflexivity |]. split; [rewrite len_app; lia |].
    split; [reflexivity |].
    unfold small.
    cbn [path_ mac_ host_ buffer_ content_length_offset_ with_buffer with_offset].
    rewrite Hp, Hm. cbn [short_enough].
    repeat split; try assumption. right. rewrite len_app. lia.
  - destruct So as [So | [So Sb]]; [contradiction |].
    rewrite Generate_memo by (unfold sizeof_buffer; lia).
    assert (R : rewrite_tail (buffer_ h) (content_length_offset_ h) n =
                Str.take (Z.to_nat (content_length_offset_ h)) (buffer_ h)
                ++ length_tail n).
    { unfold rewrite_tail, sizeof_buffer.
      replace (content_length_offset_ h =? 2048) with false by (symmetry; lia).
      unfold LibC.store_at.
      replace (Z.to_nat (content_length_offset_ h) <=? String.length (buffer_ h))%nat
        with true by (symmetry; apply Nat.leb_le; unfold Str.len in Sb; lia).
      f_equal. apply take_all. unfold Str.len in Lt. lia. }
    rewrite R.
    assert (Lx : Str.len (Str.take (Z.to_nat (content_length_offset_ h)) (buffer_ h))
                 = content_length_offset_ h) by (rewrite len_take; lia).
    eexists; eexists. split; [rewrite len_app, Lx; reflexivity |].
    split; [exact Lx |]. split; [rewrite len_app; lia |].
    split; [intros; contradiction |].
    unfold small.
    cbn [path_ mac_ host_ buffer_ content_length_offset_ with_buffer with_offset].
    rewrite Hp, Hm. cbn [short_enough].
    repeat split; try assumption. right. rewrite len_app. lia.
Qed.

Lemma Generate_keeps_small (h h1 : t) (n : N) (out : string) (hs : Z) :
  small h -> Generate h n = Ok (h1, out, hs) -> small h1.
Proof.
  intros (Sp & Sm & Sh & So) G.
  pose proof (Generate_frame _ _ _ _ _ G) as (Fp & Fm & Fh & _ & _).
  apply Generate_Ok_inv in G as (hp & F & Hb & E1 & Eo & _).
  unfold small. rewrite Fp, Fm, Fh.
  split; [exact Sp |]. split; [exact Sm |]. split; [exact Sh |].
  right. rewrite E1.
  cbn [buffer_ content_length_offset_ with_buffer with_offset].
  assert (B : 0 < content_length_offset_ hp <= 1337 /\
              content_length_offset_ hp <= Str.len (buffer_ hp) <= 2047).
  { destruct (fill_prefix_cases h hp F) as [[E ->] | (p & m & E & Hp & Hm & ->)].
    - destruct So as [So | So]; [contradiction | exact So].
    - cbn [buffer_ content_length_offset_ with_buffer with_offset] in *.
      rewrite Hp in Sp. rewrite Hm in Sm. cbn [short_enough] in Sp, Sm.
      unfold sizeof_buffer in Hb.
      pose proof (pattern_len p (host_ h) m (compressed_ h) (persistent_ h)) as L.
      pose proof (pattern_len_pos p (host_ h) m (compressed_ h) (persistent_ h)).
      rewrite len_take.
      destruct (compressed_ h), (persistent_ h); lia. }
  destruct B as [B1 B2]. split; [exact B1 |].
  rewrite Eo, rewrite_tail_len by (unfold sizeof_buffer; lia).
  pose proof (len_nonneg (length_tail n)). lia.
Qed.

Lemma Ok_inj (A : Type) (a b : A) : Ok a = Ok b -> a = b.
Proof. intros E. now injection E. Qed.

Ltac returned h' :=
  let E := fresh "E" in intros h' E; apply Ok_inj in E; subst h'.

Ltac fields :=
  cbn [mac_ path_ compressed_ persistent_ host_ buffer_ content_length_offset_
       with_mac with_path with_host with_buffer with_offset with_compressed
       with_persistent short_enough].

Lemma SetField_small (h h' : t) (f : string) (v : option string) :
  within_bounds (CSetField f v) = true -> small h ->
  SetField h f v = Ok h' -> small h'.
Proof.
  intros W (Sp & Sm & Sh & So). revert h'.
  unfold SetField, LibC.snprintf, sizeof_host. cbn [fst].
  destruct (LibC.strcasecmp f "Host" =? 0).
  { destruct v as [v|]; [| discriminate].
    change (64 =? 0) with false. cbv iota.
    returned h'. unfold small. fields.
    repeat split; try assumption. rewrite len_take. lia. }
  destruct (LibC.strcasecmp f "LETV-TV-MAC" =? 0) eqn:M;
    destruct (is_null (mac_ h)); cbn [andb].
  1: { returned h'. unfold small. fields.
       repeat split; try assumption.
       destruct v as [v|]; fields; [| exact I].
       cbn [within_bounds] in W. rewrite M in W. apply Nat.leb_le in W.
       unfold Str.len. lia. }
  all: destruct (LibC.strcasecmp f "LETV-ZIP" =? 0);
    [ destruct (negb _); returned h'; unfold small; fields; auto 6
    | destruct (LibC.strcasecmp f "Connection" =? 0); [| discriminate];
      destruct v as [v|]; [| discriminate];
      cbv zeta; destruct (negb _); returned h'; unfold small; fields;
      auto 6 ].
Qed.

Lemma step_small (h h' : t) (c : call) :
  within_bounds c = true -> small h -> step h c = Ok h' -> small h'.
Proof.
  intros W S. destruct c as [m u v | f v | n]; cbn [step].
  - unfold SetRequest. destruct (is_null (path_ h)); [| discriminate].
    intros E; apply Ok_inj in E; subst h'. destruct S as (Sp & Sm & Sh & So).
    unfold small. fields. repeat split; try assumption.
    destruct u as [u|]; fields; [| exact I].
    cbn [within_bounds] in W. apply Nat.leb_le in W. unfold Str.len. lia.
  - now apply SetField_small.
  - destruct (Generate h n) as [[[h1 out] hs]| |] eqn:G;
      cbv beta iota delta [bind]; try discriminate.
    intros E; apply Ok_inj in E; subst h'. now apply (Generate_keeps_small h h1 n out hs).
Qed.

Lemma run_small (cs : list call) (h h' : t) :
  forallb within_bounds cs = true -> small h -> run h cs = Ok h' -> small h'.
Proof.
  revert h. induction cs as [|c cs IH]; intros h W S R.
  - simpl in R. now injection R as <-.
  - simpl in W. apply andb_prop in W as [Wc W]. rewrite run_cons in R.
    destruct (step h c) as [h1| |] eqn:E; simpl in R; try discriminate.
    apply (IH h1); [exact W | now apply (step_small h h1 c) | exact R].
Qed.

Lemma small_init : small init.
Proof.
  unfold small, init. fields. unfold Str.len. simpl String.length.
  split; [exact I |]. split; [exact I |]. split; [lia | now left].
Qed.

(** Extra X13.  With request paths of at most 1023 characters and MAC
    values of at most 127, which is all the program's arrays can hold, no
    sequence of calls on a new header brings [Generate] outside
    [buffer_]: once the path and the MAC are set, [Generate] returns for
    every body size below 2^64, the header is not cut, it ends with the
    length line, it has at most 1361 characters, and the head size is its
    length. *)
Theorem Generate_fits_in_the_program
    (cs : list call) (h : t) (n : N) :
  forallb within_bounds cs = true -> run init cs = Ok h ->
  path_ h <> None -> mac_ h <> None -> Z.of_N n < 2 ^ 64 ->
  exists (h1 : t) (prefix : string),
    Generate h n = Ok (h1, prefix ++ length_tail n, Str.len (prefix ++ length_tail n)) /\
    Str.len prefix = content_length_offset_ h1 /\
    Str.len (prefix ++ length_tail n) <= 1361 /\
    Str.len (host_ h) <= 63.
Proof.
  intros W R Hp Hm Hn.
  pose proof (run_small cs init h W small_init R) as S.
  destruct (path_ h) as [p|] eqn:P; [| congruence].
  destruct (mac_ h) as [m|] eqn:M; [| congruence].
  destruct (Generate_small h p m n S P M Hn) as (h1 & prefix & G & L & B & _).
  exists h1, prefix. repeat split; try assumption. apply S.
Qed.

End ProgramSpec.

(** ** The header fields across calls *)

Module HeaderSpec.
Import PostHeader PostHeaderFacts GenerateFacts Program.

Lemma strcasecmp_same (f g k : string) :
  LibC.strcasecmp f g = 0 ->
  (LibC.strcasecmp f k =? 0) = (LibC.strcasecmp g k =? 0).
Proof.
  intros E. apply strcasecmp_zero in E.
  destruct (Z.eqb_spec (LibC.strcasecmp f k) 0) as [A | A],
           (Z.eqb_spec (LibC.strcasecmp g k) 0) as [B | B];
    try reflexivity; exfalso.
  - apply B. apply strcasecmp_zero. apply strcasecmp_zero in A. congruence.
  - apply A. apply strcasecmp_zero. apply strcasecmp_zero in B. congruence.
Qed.

(** Extra X14.  [SetField] reads a field name, and the value of
    [Connection], up to the case of its letters: two names that
    [strcasecmp] finds equal give the same outcome on every object and
    value, and so do two values of [Connection] that [strcasecmp] finds
    equal. *)
Theorem SetField_ignores_case (h : t) (f g : string) (v : option string) :
  LibC.strcasecmp f g = 0 ->
  SetField h f v = SetField h g v /\
  (LibC.strcasecmp f "Connection" = 0 ->
   forall a b : string,
     LibC.strcasecmp a b = 0 ->
     SetField h f (Some a) = SetField h g (Some b)).
Proof.
  intros E.
  assert (S : forall w, SetField h f w = SetField h g w).
  { intros w. unfold SetField.
    now rewrite !(strcasecmp_same f g _ E). }
  split; [apply S |].
  intros C a b Eab. rewrite <- S. unfold SetField.
  rewrite (strcasecmp_other f "Connection" "Host") by
    (exact C || (vm_compute; discriminate)).
  rewrite (strcasecmp_other f "Connection" "LETV-TV-MAC") by
    (exact C || (vm_compute; discriminate)).
  rewrite (strcasecmp_other f "Connection" "LETV-ZIP") by
    (exact C || (vm_compute; discriminate)).
  cbn [andb]. rewrite C.
  now rewrite (strcasecmp_same a b _ Eab).
Qed.

Lemma step_set_once (h h' : t) (c : call) :
  step h c = Ok h' ->
  (path_ h <> None -> path_ h' = path_ h) /\
  (mac_ h <> None -> mac_ h' = mac_ h).
Proof.
  destruct c as [m u v | f v | n]; cbn [step].
  - unfold SetRequest. destruct (path_ h) as [p|] eqn:P; cbn [is_null];
      [discriminate |].
    intros E. apply ProgramSpec.Ok_inj in E. subst h'.
    split; [congruence | reflexivity].
  - intros E. split; [intros _; now apply SetField_path in E |].
    revert h' E. unfold SetField.
    destruct (mac_ h) as [m0|] eqn:M; [| congruence].
    cbn [is_null]. rewrite andb_false_r.
    unfold LibC.snprintf, sizeof_host; cbn [fst].
    repeat match goal with
           | |- context [if ?b then _ else _] => destruct b eqn:?
           | |- context [match ?v with Some _ => _ | None => _ end] =>
               destruct v eqn:?
           end; intros h' E _; try discriminate;
      apply ProgramSpec.Ok_inj in E; subst h'; cbn; congruence.
  - destruct (Generate h n) as [[[h1 out] hs]| |] eqn:G;
      cbv beta iota delta [bind]; try discriminate.
    intros E. apply ProgramSpec.Ok_inj in E. cbn [fst] in E. subst h'.
    apply Generate_frame in G as (Fp & Fm & _). split; intros _; assumption.
Qed.

(** Extra X15.  The request path and the MAC are set at most once: in
    every sequence of calls that returns, a path or a MAC that is set at
    some point is the one the object holds at the end. *)
Theorem path_and_mac_are_set_once (cs : list call) (h h' : t) :
  run h cs = Ok h' ->
  (path_ h <> None -> path_ h' = path_ h) /\
  (mac_ h <> None -> mac_ h' = mac_ h).
Proof.
  revert h. induction cs as [|c cs IH]; intros h R.
  - cbn [run] in R. apply ProgramSpec.Ok_inj in R. subst h'. split; reflexivity.
  - rewrite run_cons in R.
    destruct (step h c) as [h1| |] eqn:E; cbv beta iota delta [bind] in R;
      try discriminate.
    destruct (step_set_once h h1 c E) as [P1 M1].
    destruct (IH h1 R) as [P2 M2].
    split; intros N.
    + rewrite <- (P1 N). apply P2. rewrite (P1 N). exact N.
    + rewrite <- (M1 N). apply M2. rewrite (M1 N). exact N.
Qed.

Lemma run_app (a b : list call) (h : t) :
  run h (a ++ b)%list = (h1 <- run h a ;; run h1 b).
Proof.
  revert h. induction a as [|c a IH]; intros h; [reflexivity |].
  change (run h ((c :: a) ++ b)%list) with (h1 <- step h c ;; run h1 (a ++ b)%list).
  rewrite run_cons.
  destruct (step h c) as [h1| |]; cbv beta iota delta [bind]; [| reflexivity ..].
  apply IH.
Qed.

(** What [main] leaves in the header. *)
Lemma run_main_header (short : bool) (mac : string) :
  run init (main_header short mac) =
  Ok (mk (Some mac) None false (negb short) "" "" 0).
Proof. destruct short; reflexivity. Qed.

Lemma step_request_or_host (h h' : t) (c : call) :
  request_or_host c = true -> step h c = Ok h' ->
  mac_ h' = mac_ h /\ compressed_ h' = compressed_ h /\
  persistent_ h' = persistent_ h /\
  content_length_offset_ h' = content_length_offset_ h.
Proof.
  destruct c as [m u v | f [v|] | n]; cbn [request_or_host step];
    try discriminate.
  - intros _. unfold SetRequest. destruct (is_null (path_ h)); [| discriminate].
    intros E. apply ProgramSpec.Ok_inj in E. subst h'. now repeat split.
  - intros H. unfold SetField. rewrite H.
    unfold LibC.snprintf, sizeof_host. cbn [fst].
    change (64 =? 0) with false. cbv iota.
    intros E. apply ProgramSpec.Ok_inj in E. subst h'. now repeat split.
Qed.

Lemma run_request_or_host (cs : list call) (h h' : t) :
  forallb request_or_host cs = true -> run h cs = Ok h' ->
  mac_ h' = mac_ h /\ compressed_ h' = compressed_ h /\
  persistent_ h' = persistent_ h /\
  content_length_offset_ h' = content_length_offset_ h.
Proof.
  revert h. induction cs as [|c cs IH]; intros h W R.
  - cbn [run] in R. apply ProgramSpec.Ok_inj in R. subst h'. now repeat split.
  - cbn [forallb] in W. apply andb_prop in W as [Wc W]. rewrite run_cons in R.
    destruct (step h c) as [h1| |] eqn:E; cbv beta iota delta [bind] in R;
      try discriminate.
    destruct (step_request_or_host h h1 c Wc E) as (A1 & A2 & A3 & A4).
    destruct (IH h1 W R) as (B1 & B2 & B3 & B4).
    repeat split; congruence.
Qed.

(** Extra X16.  The header [main] prepares: after
    [SetField("LETV-TV-MAC", mac)] and, with the option [-S],
    [SetField("Connection", "close")], and then any calls that set only the
    request and the host, the first [Generate] emits, when the whole header
    has at most 2047 characters, the request head with that MAC, without
    [LETV-ZIP], and with [Connection: close] exactly under [-S]; the head
    size is its length. *)
Theorem main_header_is_emitted
    (short : bool) (mac : string) (cs : list call) (h : t) (p : string) (n : N) :
  forallb request_or_host cs = true ->
  run init (main_header short mac ++ cs)%list = Ok h ->
  path_ h = Some p ->
  Str.len (Wire.request_head p (host_ h) mac false (negb short) n) <= 2047 ->
  exists h1 : t,
    Generate h n =
    Ok (h1, Wire.request_head p (host_ h) mac false (negb short) n,
        Str.len (Wire.request_head p (host_ h) mac false (negb short) n)) /\
    buffer_ h1 = Wire.request_head p (host_ h) mac false (negb short) n.
Proof.
  intros W R P L.
  rewrite run_app, run_main_header in R. cbv beta iota delta [bind] in R.
  destruct (run_request_or_host cs _ h W R) as (Hm & Hc & Hk & Ho).
  cbn [mac_ compressed_ persistent_ content_length_offset_] in Hm, Hc, Hk, Ho.
  rewrite PostHeaderWire.request_head_pattern in *.
  rewrite len_app in L. pose proof (len_nonneg (length_tail n)) as Lt.
  pose proof (Generate_fresh h p mac n Ho P Hm) as G.
  cbv zeta in G. rewrite Hc, Hk in G.
  rewrite G by (unfold sizeof_buffer; lia).
  rewrite take_all by (unfold Str.len in L; rewrite str_length_app; unfold Str.len in Lt; lia).
  eexists. split; [rewrite len_app; reflexivity | reflexivity].
Qed.

End HeaderSpec.

(** ** The variables [ParseOptions] leaves *)

Module ParseOptionsResult.
Import Strto Options.
Local Open Scope list_scope.

Ltac option_fields :=
  cbv beta iota delta
    [settled by_atoi Ascii.eqb Bool.eqb andb enable_verbose short_transaction
     buffer_size transfer_rate connect_retry idle_transfer_interval
     idle_transfer_idle_limit idle_transfer_busy_limit zip_level].

(** What one option does to the variables other than the destination. *)
Lemma option_case_result (o o' : t) (opt : ascii) (a : string) :
  option_case o opt a = Returns o' ->
  enable_verbose o' = (if Ascii.eqb opt "V" then true else enable_verbose o) /\
  short_transaction o' = (if Ascii.eqb opt "S" then true else short_transaction o) /\
  settled ParseSize (if Ascii.eqb opt "s" then Some a else None)
          (buffer_size o) (buffer_size o') /\
  settled ParseRate (if Ascii.eqb opt "r" then Some a else None)
          (transfer_rate o) (transfer_rate o') /\
  settled ParseInterval (if Ascii.eqb opt "i" then Some a else None)
          (idle_transfer_interval o) (idle_transfer_interval o') /\
  settled by_atoi (if Ascii.eqb opt "n" then Some a else None)
          (connect_retry o) (connect_retry o') /\
  settled by_atoi (if Ascii.eqb opt "l" then Some a else None)
          (idle_transfer_idle_limit o) (idle_transfer_idle_limit o') /\
  settled by_atoi (if Ascii.eqb opt "L" then Some a else None)
          (idle_transfer_busy_limit o) (idle_transfer_busy_limit o') /\
  settled by_atoi (if Ascii.eqb opt "c" then Some a else None)
          (zip_level o) (zip_level o').
Proof.
  destruct opt as [[|] [|] [|] [|] [|] [|] [|] [|]];
    cbv beta iota delta [option_case set_number]; intros H;
    repeat match type of H with
           | match ?r with Returns _ => _ | Exits _ => _ end = _ =>
               destruct r eqn:?; try discriminate H
           end;
    try discriminate H; injection H as <-; option_fields;
    repeat split; assumption.
Qed.

Lemma settled_step (parse : string -> exits Z) (b : bool) (a : string)
    (rest : option string) (v0 v1 v : Z) :
  settled parse (if b then Some a else None) v0 v1 ->
  settled parse rest v1 v ->
  settled parse (match rest with
                 | Some x => Some x
                 | None => if b then Some a else None
                 end) v0 v.
Proof.
  destruct rest as [x|]; [intros _ H; exact H |].
  destruct b; unfold settled; intros H1 H2; congruence.
Qed.

Lemma option_loop_result (gs : list (ascii * string)) :
  forall o0 o : t,
    option_loop o0 gs = Returns o ->
    enable_verbose o = (if given "V" gs then true else enable_verbose o0) /\
    short_transaction o = (if given "S" gs then true else short_transaction o0) /\
    settled ParseSize (last_arg "s" gs) (buffer_size o0) (buffer_size o) /\
    settled ParseRate (last_arg "r" gs) (transfer_rate o0) (transfer_rate o) /\
    settled ParseInterval (last_arg "i" gs)
            (idle_transfer_interval o0) (idle_transfer_interval o) /\
    settled by_atoi (last_arg "n" gs) (connect_retry o0) (connect_retry o) /\
    settled by_atoi (last_arg "l" gs)
            (idle_transfer_idle_limit o0) (idle_transfer_idle_limit o) /\
    settled by_atoi (last_arg "L" gs)
            (idle_transfer_busy_limit o0) (idle_transfer_busy_limit o) /\
    settled by_atoi (last_arg "c" gs) (zip_level o0) (zip_level o).
Proof.
  induction gs as [|[opt a] gs IH]; intros o0 o H; cbn [option_loop] in H.
  - injection H as <-. unfold given, settled. cbn [last_arg]. now repeat split.
  - destruct (option_case o0 opt a) as [o1|st] eqn:E; [| discriminate].
    destruct (option_case_result o0 o1 opt a E)
      as (A1 & A2 & A3 & A4 & A5 & A6 & A7 & A8 & A9).
    destruct (IH o1 o H) as (B1 & B2 & B3 & B4 & B5 & B6 & B7 & B8 & B9).
    unfold given in *. cbn [last_arg].
    split. { rewrite B1, A1. destruct (last_arg "V" gs); [reflexivity |].
             now destruct (Ascii.eqb opt "V"). }
    split. { rewrite B2, A2. destruct (last_arg "S" gs); [reflexivity |].
             now destruct (Ascii.eqb opt "S"). }
    repeat split; eapply settled_step; eassumption.
Qed.

(** Extra X17.  What [ParseOptions] leaves in the variables when it
    returns: each flag is set exactly when its option was given, and each
    number is what its function made of the argument of the last
    occurrence of its option, earlier occurrences having no effect, or the
    initial value when the option was not given. *)
Theorem ParseOptions_result (gs : list (ascii * string)) (o : t) :
  ParseOptions gs = Returns o ->
  enable_verbose o = given "V" gs /\
  short_transaction o = given "S" gs /\
  settled ParseSize (last_arg "s" gs) (1024 * 1024) (buffer_size o) /\
  settled ParseRate (last_arg "r" gs) 12500 (transfer_rate o) /\
  settled ParseInterval (last_arg "i" gs) 300 (idle_transfer_interval o) /\
  settled by_atoi (last_arg "n" gs) 3 (connect_retry o) /\
  settled by_atoi (last_arg "l" gs) 1 (idle_transfer_idle_limit o) /\
  settled by_atoi (last_arg "L" gs) 3 (idle_transfer_busy_limit o) /\
  settled by_atoi (last_arg "c" gs) 0 (zip_level o).
Proof.
  unfold ParseOptions.
  destruct (option_loop initial gs) as [o1|st] eqn:L; [| discriminate].
  destruct (destination o1); [discriminate |].
  intros H. injection H as <-.
  destruct (option_loop_result gs initial o1 L)
    as (B1 & B2 & B3 & B4 & B5 & B6 & B7 & B8 & B9).
  split. { rewrite B1. now destruct (given "V" gs). }
  split. { rewrite B2. now destruct (given "S" gs). }
  repeat split; assumption.
Qed.

End ParseOptionsResult.

(** ** The properties of main.cc at work *)

Module MainWitnesses.
Import PostHeader Scenario Strto Options Program.

Lemma ParseSize_numeral_witness :
  Z.of_N 64 < 2 ^ 64 /\ ParseSize "64k" = Returns 65536.
Proof.
  split; [lia |].
  destruct (OptionsSpec.ParseSize_numeral 64) as (_ & K & _); [lia |].
  exact K.
Defined.

Lemma ParseRate_numeral_witness :
  Z.of_N 100 < 2 ^ 64 /\ ParseRate "100k" = Returns 12500.
Proof.
  split; [lia |].
  destruct (OptionsSpec.ParseRate_numeral 100) as (_ & K & _); [lia |].
  exact K.
Defined.

Lemma ParseInterval_numeral_witness :
  Z.of_N 5 < 2 ^ 64 /\ ParseInterval "5m" = Returns 300.
Proof.
  split; [lia |].
  destruct (OptionsSpec.ParseInterval_numeral 5) as (_ & _ & _ & K & _); [lia |].
  exact K.
Defined.

Lemma text_after_the_suffix_is_not_read_witness :
  isdigit "k" = false /\ ParseSize "1kB" = ParseSize "1k".
Proof.
  split; [reflexivity |].
  destruct (OptionsSpec.text_after_the_suffix_is_not_read 1 "k" "B")
    as (K & _); [reflexivity |].
  exact K.
Defined.

Lemma numeral_out_of_range_exits_witness :
  2 ^ 64 <= Z.of_N 18446744073709551616 /\ starts_with_digit "k" = false /\
  ParseSize "18446744073709551616k" = Exits 1.
Proof.
  split; [lia |]. split; [reflexivity |].
  destruct (OptionsSpec.numeral_out_of_range_exits 18446744073709551616 "k")
    as (K & _); [lia | reflexivity |].
  exact K.
Defined.

Lemma missing_number_reads_as_zero_witness :
  no_number "k" = true /\ size_unit (deref "k") = Times 1024 /\
  ParseSize "k" = Returns 0.
Proof.
  split; [reflexivity |]. split; [reflexivity |].
  destruct (OptionsSpec.missing_number_reads_as_zero "k") as (K & _);
    [reflexivity |].
  apply K. discriminate.
Defined.

Lemma minus_sign_wraps_witness :
  0 < Z.of_N 1 < 2 ^ 64 /\ ParseSize "-1" = Returns 18446744073709551615.
Proof.
  split; [lia |].
  destruct (OptionsSpec.minus_sign_wraps 1) as (K & _); [lia |].
  exact K.
Defined.

Lemma atoi_options_take_anything_witness :
  In ("n"%char, connect_retry) atoi_options /\
  Z.of_N 5 < 2 ^ 31 /\
  exists o' : Options.t,
    option_case initial "n" "5" = Returns o' /\ connect_retry o' = 5.
Proof.
  split; [right; left; reflexivity |]. split; [lia |].
  destruct (ParseOptionsSpec.atoi_options_take_anything
              "n" connect_retry initial 5) as (_ & K & _);
    [right; left; reflexivity |].
  apply K. lia.
Defined.

Lemma head_size_and_length_witness :
  run init [request "/up"; CSetField "host" (Some "example.org");
            CSetField "LETV-TV-MAC" (Some mac)] = Ok ready /\
  exists (h1 : PostHeader.t) (out : string) (hs : Z),
    Generate ready 10 = Ok (h1, out, hs) /\ Str.len out = Z.min 2047 hs.
Proof.
  split; [vm_compute; reflexivity |].
  destruct (Generate ready 10) as [[[h1 out] hs]| w |] eqn:G.
  - exists h1, out, hs. split; [reflexivity |].
    apply (ProgramSpec.head_size_and_length
             [request "/up"; CSetField "host" (Some "example.org");
              CSetField "LETV-TV-MAC" (Some mac)] ready h1 10 out hs);
      [vm_compute; reflexivity | exact G].
  - vm_compute in G. discriminate.
  - vm_compute in G. discriminate.
Defined.

Lemma Generate_fits_in_the_program_witness :
  forallb within_bounds
    [request "/up"; CSetField "host" (Some "example.org");
     CSetField "LETV-TV-MAC" (Some mac)] = true /\
  run init [request "/up"; CSetField "host" (Some "example.org");
            CSetField "LETV-TV-MAC" (Some mac)] = Ok ready /\
  path_ ready = Some "/up" /\ mac_ ready = Some mac /\ Z.of_N 10 < 2 ^ 64 /\
  exists (h1 : PostHeader.t) (prefix : string),
    Generate ready 10 =
    Ok (h1, prefix ++ length_tail 10, Str.len (prefix ++ length_tail 10)) /\
    Str.len (prefix ++ length_tail 10) <= 1361.
Proof.
  split; [vm_compute; reflexivity |]. split; [vm_compute; reflexivity |].
  split; [reflexivity |]. split; [reflexivity |]. split; [lia |].
  destruct (ProgramSpec.Generate_fits_in_the_program
              [request "/up"; CSetField "host" (Some "example.org");
               CSetField "LETV-TV-MAC" (Some mac)] ready 10)
    as (h1 & prefix & G & _ & L & _);
    [vm_compute; reflexivity | vm_compute; reflexivity
    | discriminate | discriminate | lia |].
  exists h1, prefix. split; [exact G | exact L].
Defined.

Lemma SetField_ignores_case_witness :
  LibC.strcasecmp "HOST" "Host" = 0 /\
  SetField init "HOST" (Some "example.org") =
  SetField init "Host" (Some "example.org").
Proof.
  split; [reflexivity |].
  destruct (HeaderSpec.SetField_ignores_case
              init "HOST" "Host" (Some "example.org")) as (K & _);
    [reflexivity |].
  exact K.
Defined.

Lemma path_and_mac_are_set_once_witness :
  exists h' : PostHeader.t,
    run ready [CGenerate 10; CSetField "Host" (Some "example.com");
               CSetField "LETV-ZIP" (Some "1"); CGenerate 20] = Ok h' /\
    path_ h' = Some "/up" /\ mac_ h' = Some mac.
Proof.
  destruct (run ready [CGenerate 10; CSetField "Host" (Some "example.com");
                       CSetField "LETV-ZIP" (Some "1"); CGenerate 20])
    as [h'| w |] eqn:R.
  - exists h'. split; [reflexivity |].
    destruct (HeaderSpec.path_and_mac_are_set_once _ ready h' R) as [P M].
    split; [apply P | apply M]; discriminate.
  - vm_compute in R. discriminate.
  - vm_compute in R. discriminate.
Defined.

Lemma main_header_is_emitted_witness :
  forallb request_or_host
    [request "/up"; CSetField "Host" (Some "example.org")] = true /\
  run init (main_header true mac ++
            [request "/up"; CSetField "Host" (Some "example.org")])%list =
  Ok (PostHeader.mk (Some mac) (Some "/up") false false "example.org" "" 0) /\
  exists h1 : PostHeader.t,
    Generate (PostHeader.mk (Some mac) (Some "/up") false false "example.org" "" 0) 10 =
    Ok (h1, Wire.request_head "/up" "example.org" mac false false 10,
        Str.len (Wire.request_head "/up" "example.org" mac false false 10)).
Proof.
  split; [vm_compute; reflexivity |]. split; [vm_compute; reflexivity |].
  destruct (HeaderSpec.main_header_is_emitted
              true mac [request "/up"; CSetField "Host" (Some "example.org")]
              (PostHeader.mk (Some mac) (Some "/up") false false "example.org" "" 0)
              "/up" 10) as (h1 & G & _);
    [vm_compute; reflexivity | vm_compute; reflexivity | reflexivity
    | vm_compute; discriminate |].
  exists h1. exact G.
Defined.

Lemma ParseOptions_result_witness :
  ParseOptions [("s"%char, "1k"); ("V"%char, ""); ("d"%char, "letv://h/p");
                ("s"%char, "2k")] =
  Returns (Options.mk true false "letv://h/p" 2048 12500 3 300 1 3 0) /\
  ParseSize "2k" = Returns 2048.
Proof.
  split; [vm_compute; reflexivity |].
  destruct (ParseOptionsResult.ParseOptions_result
              [("s"%char, "1k"); ("V"%char, ""); ("d"%char, "letv://h/p");
               ("s"%char, "2k")]
              (Options.mk true false "letv://h/p" 2048 12500 3 300 1 3 0))
    as (_ & _ & K & _); [vm_compute; reflexivity |].
  exact K.
Defined.

End MainWitnesses.
